(** * speed_heuristics_checker: a shallow embedding and its properties

    The analyser [speed_heuristics_checker] works on the raw HTML text of one page:
    two global regular-expression passes extract script and image elements,
    a scorer turns six counts into a 0..100 "performance smell score", and a
    reporter builds a list of notes.

    JavaScript strings are sequences of UTF-16 code units; they are modelled
    as [list Z].  JavaScript numbers holding counts are modelled as [Z]; the
    two divisions of the source ([noLazy / totalImages] and
    [inlineBytes / 1024]) are modelled over [Q].  Both are exact for counts
    below 2^53: the second divides by a power of two, the first is only
    compared with 0.5, and correct rounding cannot carry a quotient across
    0.5 for a denominator below 2^53.

    The analyser is embedded twice: as a function of the page text
    ([analyse]), and statement by statement over a store of pattern objects
    ([analyse_st]), in which every pattern literal creates an object that
    carries its [lastIndex].  The second is proved to return, in every
    store, what the first computes. *)

From Stdlib Require Import Ascii String.
From Stdlib Require Import ZArith QArith Qround List Bool Lia.
From Stdlib Require Import DecimalString.
Import ListNotations.

Local Open Scope Z_scope.

(* ================================================================== *)
(** ** JavaScript strings *)

Definition code_unit := Z.
Definition jsstring := list code_unit.

(** The code units of an ASCII literal of the source. *)
Definition lit (s : string) : jsstring :=
  map (fun a => Z.of_N (N_of_ascii a)) (list_ascii_of_string s).

(** [Number.prototype.toString] on an integer (radix 10). *)
Definition Number_toString (n : Z) : jsstring :=
  lit (NilZero.string_of_int (Z.to_int n)).

Fixpoint jsstring_eqb (a b : jsstring) : bool :=
  match a, b with
  | [], [] => true
  | x :: a', y :: b' => (x =? y) && jsstring_eqb a' b'
  | _, _ => false
  end.

(** [s.substring(a, b)] for [0 <= a <= b]. *)
Definition substring (s : jsstring) (a b : Z) : jsstring :=
  firstn (Z.to_nat (b - a)) (skipn (Z.to_nat a) s).

(** [s.endsWith(suffix)]. *)
Definition endsWith (s suffix : jsstring) : bool :=
  let n := length s in
  let k := length suffix in
  (k <=? n)%nat && jsstring_eqb (skipn (n - k) s) suffix.

(** [Buffer.byteLength(s, 'utf8')]: the number of bytes of the UTF-8
    encoding of a UTF-16 string.  A surrogate pair encodes one code point on
    four bytes; a lone surrogate is replaced by U+FFFD, three bytes. *)
Definition is_high_surrogate (c : code_unit) : bool :=
  (0xD800 <=? c) && (c <=? 0xDBFF).
Definition is_low_surrogate (c : code_unit) : bool :=
  (0xDC00 <=? c) && (c <=? 0xDFFF).

Fixpoint byteLength (s : jsstring) : Z :=
  match s with
  | [] => 0
  | c :: tl =>
      if c <? 0x80 then 1 + byteLength tl
      else if c <? 0x800 then 2 + byteLength tl
      else if is_high_surrogate c then
        match tl with
        | d :: tl' =>
            if is_low_surrogate d then 4 + byteLength tl'
            else 3 + byteLength tl
        | [] => 3
        end
      else 3 + byteLength tl
  end.

(** [parseInt(s, 10)] on a string of decimal digits, the only strings the
    source passes to it (capture group [(\d+)]): the integer that the
    digits denote.  Up to 2^53 this is the Number returned.  Above 2^53
    the Number returned is a double near that integer (beyond twenty digits
    one that the implementation chooses), again at least 2^53.  The source
    only tests the result for being non-zero and for being greater than
    1000, and the integer and the double pass the same tests. *)
Definition parseInt (s : jsstring) : Z :=
  fold_left (fun acc c => 10 * acc + (c - 48)) s 0.

(* ================================================================== *)
(** ** Regular expressions

    The fragment of ECMAScript patterns used by the source, all with the
    [i] flag and without the [u] flag: pattern characters, character
    classes, [\b], concatenation, capture groups, and greedy or lazy
    repetition of a single-character atom.  The matcher is the backtracking
    matcher of the language definition, in continuation-passing style. *)

Module RegExp.

(** [Canonicalize] under [ignoreCase] without [unicode].  It never maps a
    code unit above 127 to one below 128, and every pattern character and
    class member of the source is either ASCII or caseless white space, so
    only the folding of ASCII letters is observable. *)
Definition canonicalize (c : code_unit) : code_unit :=
  if (97 <=? c) && (c <=? 122) then c - 32 else c.

(** [\w]: the word characters used by [\b]. *)
Definition is_word_char (c : code_unit) : bool :=
  ((48 <=? c) && (c <=? 57)) || ((65 <=? c) && (c <=? 90))
  || (c =? 95) || ((97 <=? c) && (c <=? 122)).

(** [\d]. *)
Definition is_digit (c : code_unit) : bool := (48 <=? c) && (c <=? 57).

(** [\s]: WhiteSpace and LineTerminator code points. *)
Definition is_space (c : code_unit) : bool :=
  ((9 <=? c) && (c <=? 13)) || (c =? 32) || (c =? 0xA0) || (c =? 0x1680)
  || ((0x2000 <=? c) && (c <=? 0x200A)) || (c =? 0x2028) || (c =? 0x2029)
  || (c =? 0x202F) || (c =? 0x205F) || (c =? 0x3000) || (c =? 0xFEFF).

Inductive class_atom : Type :=
| ClassChar (c : code_unit)   (* a single character *)
| ClassDigit                  (* \d *)
| ClassSpace                  (* \s *)
| ClassNonSpace.              (* \S *)

Definition atom_mem (a : class_atom) (c : code_unit) : bool :=
  match a with
  | ClassChar p => canonicalize p =? canonicalize c
  | ClassDigit => is_digit c
  | ClassSpace => is_space c
  | ClassNonSpace => negb (is_space c)
  end.

(** A one-character atom: a pattern character, or a class [[...]] /
    [[^...]]. *)
Inductive charset : Type :=
| One (c : code_unit)
| Class (invert : bool) (atoms : list class_atom).

Definition char_in (cs : charset) (c : code_unit) : bool :=
  match cs with
  | One p => canonicalize p =? canonicalize c
  | Class invert atoms => xorb invert (existsb (fun a => atom_mem a c) atoms)
  end.

Inductive regex : Type :=
| Eps
| Chr (cs : charset)
| Bound                                   (* \b *)
| Seq (r1 r2 : regex)
| Star (greedy : bool) (cs : charset)     (* cs* and cs*? *)
| Group (n : nat) (r : regex).            (* the n-th capture group *)

(** [cs+] *)
Definition Plus (greedy : bool) (cs : charset) : regex :=
  Seq (Chr cs) (Star greedy cs).

(** The concatenation of the pattern characters of a literal. *)
Fixpoint Lits (s : jsstring) : regex :=
  match s with
  | [] => Eps
  | c :: tl => Seq (Chr (One c)) (Lits tl)
  end.

(** A matcher state: the code unit before the current position, the index
    of the position, the input from the position on, and the capture
    ranges recorded so far (most recent first). *)
Record mstate : Type := MState {
  prev : option code_unit;
  pos : Z;
  rest : jsstring;
  caps : list (nat * (Z * Z))
}.

Definition advance (x : mstate) (c : code_unit) (tl : jsstring) : mstate :=
  MState (Some c) (pos x + 1) tl (caps x).

Definition set_cap (n : nat) (a b : Z) (y : mstate) : mstate :=
  MState (prev y) (pos y) (rest y) ((n, (a, b)) :: caps y).

Definition is_word_opt (o : option code_unit) : bool :=
  match o with Some c => is_word_char c | None => false end.

(** The [\b] assertion at a position. *)
Definition at_boundary (x : mstate) : bool :=
  xorb (is_word_opt (prev x)) (is_word_opt (hd_error (rest x))).

Definition cont := mstate -> option mstate.

(** RepeatMatcher for a one-character atom with no upper bound: the greedy
    form tries one more iteration first, the lazy form tries the
    continuation first. *)
Fixpoint repeat_matcher (greedy : bool) (cs : charset)
    (pv : option code_unit) (p : Z) (s : jsstring)
    (cp : list (nat * (Z * Z))) (c : cont) {struct s} : option mstate :=
  if greedy then
    match
      match s with
      | ch :: tl =>
          if char_in cs ch
          then repeat_matcher greedy cs (Some ch) (p + 1) tl cp c
          else None
      | [] => None
      end
    with
    | Some z => Some z
    | None => c (MState pv p s cp)
    end
  else
    match c (MState pv p s cp) with
    | Some z => Some z
    | None =>
        match s with
        | ch :: tl =>
            if char_in cs ch
            then repeat_matcher greedy cs (Some ch) (p + 1) tl cp c
            else None
        | [] => None
        end
    end.

Fixpoint matcher (r : regex) (x : mstate) (c : cont) : option mstate :=
  match r with
  | Eps => c x
  | Chr cs =>
      match rest x with
      | ch :: tl => if char_in cs ch then c (advance x ch tl) else None
      | [] => None
      end
  | Bound => if at_boundary x then c x else None
  | Seq r1 r2 => matcher r1 x (fun y => matcher r2 y c)
  | Star greedy cs =>
      repeat_matcher greedy cs (prev x) (pos x) (rest x) (caps x) c
  | Group n r => matcher r x (fun y => c (set_cap n (pos x) (pos y) y))
  end.

(** One attempt at a given start position, with no capture recorded. *)
Definition match_at (r : regex) (pv : option code_unit) (p : Z)
    (s : jsstring) : option mstate :=
  matcher r (MState pv p s []) Some.

(** The scan of RegExpBuiltinExec: the first start position, from the
    current one on, at which the pattern matches.  The result is the start
    index and the end state. *)
Fixpoint search (r : regex) (pv : option code_unit) (p : Z) (s : jsstring)
    : option (Z * mstate) :=
  match match_at r pv p s with
  | Some y => Some (p, y)
  | None =>
      match s with
      | ch :: tl => search r (Some ch) (p + 1) tl
      | [] => None
      end
  end.

(** A match result: index, end index and the captured substrings
    ([None] is [undefined]). *)
Record match_result : Type := MatchResult {
  index : Z;
  end_index : Z;
  groups : nat -> option jsstring
}.

Fixpoint lookup_cap (cp : list (nat * (Z * Z))) (n : nat) : option (Z * Z) :=
  match cp with
  | [] => None
  | (k, range) :: tl => if Nat.eqb k n then Some range else lookup_cap tl n
  end.

Definition capture (input : jsstring) (cp : list (nat * (Z * Z))) (n : nat)
    : option jsstring :=
  match lookup_cap cp n with
  | Some (a, b) => Some (substring input a b)
  | None => None
  end.

Definition result_of (input : jsstring) (start : Z) (y : mstate)
    : match_result :=
  MatchResult start (pos y) (capture input (caps y)).

(** [r.test(s)] and [s.match(r)] for a pattern without the [g] flag. *)
Definition test (r : regex) (s : jsstring) : bool :=
  match search r None 0 s with Some _ => true | None => false end.

Definition exec (r : regex) (s : jsstring) : option match_result :=
  match search r None 0 s with
  | Some (start, y) => Some (result_of s start y)
  | None => None
  end.

(** [[...s.matchAll(r)]] for a pattern with the [g] flag: [exec] is
    repeated from [lastIndex]; after an empty match [lastIndex] moves one
    code unit further.  [fuel] bounds the number of matches. *)
Fixpoint matchAll_from (fuel : nat) (r : regex) (input : jsstring)
    (pv : option code_unit) (p : Z) (s : jsstring) : list match_result :=
  match fuel with
  | O => []
  | S fuel' =>
      match search r pv p s with
      | None => []
      | Some (start, y) =>
          result_of input start y ::
          (if pos y =? start then
             match rest y with
             | ch :: tl =>
                 matchAll_from fuel' r input (Some ch) (pos y + 1) tl
             | [] => []
             end
           else matchAll_from fuel' r input (prev y) (pos y) (rest y))
      end
  end.

Definition matchAll (r : regex) (input : jsstring) : list match_result :=
  matchAll_from (S (length input)) r input None 0 input.

End RegExp.

Import RegExp.

Declare Scope regex_scope.
Delimit Scope regex_scope with re.
Infix ">>" := Seq (at level 61, right associativity) : regex_scope.
Local Open Scope regex_scope.

(* ================================================================== *)
(** ** The patterns of the source *)

Definition c_gt : code_unit := 62.      (* > *)
Definition c_eq : code_unit := 61.      (* = *)
Definition c_dquote : code_unit := 34.  (* double quote *)
Definition c_squote : code_unit := 39.  (* single quote *)

(** The classes [[^>]], [\s], [[\s\S]], [\d], and the class of the two
    quote characters and its complement. *)
Definition not_gt : charset := Class true [ClassChar c_gt].
Definition space : charset := Class false [ClassSpace].
Definition any_char : charset := Class false [ClassSpace; ClassNonSpace].
Definition quote : charset :=
  Class false [ClassChar c_dquote; ClassChar c_squote].
Definition not_quote : charset :=
  Class true [ClassChar c_dquote; ClassChar c_squote].
Definition digit : charset := Class false [ClassDigit].

(** [\s*=\s*] followed by a quote character: shared by every attribute
    pattern. *)
Definition eq_quote : regex :=
  Star true space >> Chr (One c_eq) >> Star true space >> Chr quote.

(** The script pattern, flags [g] and [i]: [<script\b], group 1 = [[^>]*]
    (greedy), [>], group 2 = [[\s\S]*?] (lazy), [<\/script>]. *)
Definition re_script : regex :=
  Lits (lit "<script") >> Bound >> Group 1 (Star true not_gt)
  >> Chr (One c_gt) >> Group 2 (Star false any_char) >> Lits (lit "</script>").

(** [/\bdefer\b/i] and [/\basync\b/i] *)
Definition re_defer : regex := Bound >> Lits (lit "defer") >> Bound.
Definition re_async : regex := Bound >> Lits (lit "async") >> Bound.

(** [hasSrc]: [\bsrc\s*=\s*], a quote, one or more non-quotes, a quote;
    flag [i]. *)
Definition re_has_src : regex :=
  Bound >> Lits (lit "src") >> eq_quote >> Plus true not_quote >> Chr quote.

(** [/<img\b([^>]*?)>/gi] *)
Definition re_img : regex :=
  Lits (lit "<img") >> Bound >> Group 1 (Star false not_gt) >> Chr (One c_gt).

(** [hasLazy]: [\bloading\s*=\s*], a quote, [lazy], a quote; flag [i]. *)
Definition re_lazy : regex :=
  Bound >> Lits (lit "loading") >> eq_quote >> Lits (lit "lazy") >> Chr quote.

(** [srcMatch]: as [hasSrc], the non-quotes captured as group 1. *)
Definition re_src : regex :=
  Bound >> Lits (lit "src") >> eq_quote >> Group 1 (Plus true not_quote)
  >> Chr quote.

(** [widthMatch], [heightMatch]: [\bwidth\s*=\s*] (or [height]), a quote,
    [(\d+)] as group 1, a quote; flag [i]. *)
Definition re_width : regex :=
  Bound >> Lits (lit "width") >> eq_quote >> Group 1 (Plus true digit)
  >> Chr quote.
Definition re_height : regex :=
  Bound >> Lits (lit "height") >> eq_quote >> Group 1 (Plus true digit)
  >> Chr quote.

(* ================================================================== *)
(** ** Values and completions *)

(** [v || ''] for a capture [v]: [undefined] and the empty string are
    falsy. *)
Definition or_empty (v : option jsstring) : jsstring :=
  match v with
  | Some (c :: tl) => c :: tl
  | _ => []
  end.

(** Truthiness of a value that is [null] or a number. *)
Definition truthy (v : option Z) : bool :=
  match v with
  | Some n => negb (n =? 0)
  | None => false
  end.

(** [v && v > bound] in a condition, for [v] that is [null] or a number. *)
Definition and_gt (v : option Z) (bound : Z) : bool :=
  truthy v && match v with Some n => bound <? n | None => false end.

(** [x > y] on exact quotients. *)
Definition Qgt_bool (x y : Q) : bool := negb (Qle_bool x y).

(** [Math.round]: the nearest integer, a tie going up. *)
Definition Math_round (x : Q) : Z := Qfloor (x + (1 # 2)).

(** [a / b] on integers. *)
Definition js_div (a b : Z) : Q := (inject_Z a / inject_Z b)%Q.

Record Error : Type := { message : jsstring }.

(** The outcome of an awaited call: a value, or a thrown error. *)
Inductive completion (A : Type) : Type :=
| Return (a : A)
| Throw (e : Error).
Arguments Return {A} a.
Arguments Throw {A} e.

Definition bind {A B : Type} (m : completion A) (k : A -> completion B)
    : completion B :=
  match m with
  | Return a => k a
  | Throw e => Throw e
  end.

Notation "'await' x <- m ; k" := (bind m (fun x => k))
  (at level 10, x name, m at level 100, k at level 200).

(** What the source reads of a [fetch] response. *)
Record Response : Type := {
  status : Z;
  text : completion jsstring
}.

(** [res.ok]: the status is in the range 200-299. *)
Definition ok (res : Response) : bool :=
  (200 <=? status res) && (status res <=? 299).

(* ================================================================== *)
(** ** The analyser *)

Record AnalysisResult : Type := {
  url : jsstring;
  totalScripts : Z;
  blockingScripts : Z;
  inlineScriptKB : Z;
  totalImages : Z;
  imagesMissingLazyLoad : Z;
  suspectedLargeImages : Z;
  performanceSmellScore : Z;
  notes : list jsstring
}.

(** The three counters of the script loop and of the image loop. *)
Record script_counts : Type := ScriptCounts {
  sc_total : Z;
  sc_blocking : Z;
  sc_inlineBytes : Z
}.

Record image_counts : Type := ImageCounts {
  ic_total : Z;
  ic_noLazy : Z;
  ic_suspectedLarge : Z
}.

Definition hasDefer (attrs : jsstring) : bool := test re_defer attrs.
Definition hasAsync (attrs : jsstring) : bool := test re_async attrs.
Definition hasSrc (attrs : jsstring) : bool := test re_has_src attrs.
Definition hasLazy (attrs : jsstring) : bool := test re_lazy attrs.

(** The body of [for (const match of scriptMatches)]. *)
Definition script_step (acc : script_counts) (m : match_result)
    : script_counts :=
  let totalScripts := sc_total acc + 1 in
  let attrs := or_empty (groups m 1%nat) in
  let body := or_empty (groups m 2%nat) in
  let blockingScripts :=
    if negb (hasDefer attrs) && negb (hasAsync attrs)
    then sc_blocking acc + 1 else sc_blocking acc in
  let inlineBytes :=
    if negb (hasSrc attrs)
    then sc_inlineBytes acc + byteLength body else sc_inlineBytes acc in
  ScriptCounts totalScripts blockingScripts inlineBytes.

Definition scriptMatches (html : jsstring) : list match_result :=
  matchAll re_script html.

Definition imgMatches (html : jsstring) : list match_result :=
  matchAll re_img html.

Definition count_scripts (html : jsstring) : script_counts :=
  fold_left script_step (scriptMatches html) (ScriptCounts 0 0 0).

(** The first capture of a successful [match]; it takes part in every match
    of the three patterns it is used with. *)
Definition group1 (m : match_result) : jsstring :=
  match groups m 1%nat with Some s => s | None => [] end.

Definition widthVal (attrs : jsstring) : option Z :=
  match exec re_width attrs with
  | Some m => Some (parseInt (group1 m))
  | None => None
  end.

Definition heightVal (attrs : jsstring) : option Z :=
  match exec re_height attrs with
  | Some m => Some (parseInt (group1 m))
  | None => None
  end.

(** The scorer: lines 92-107 of the source. *)
Definition score (totalScripts blockingScripts inlineBytes
    totalImages noLazy suspectedLarge : Z) : Z :=
  let perfScore := 100 in
  let perfScore :=
    if 10 <? totalScripts then perfScore - (totalScripts - 10) * 2
    else perfScore in
  let perfScore :=
    if 5 <? blockingScripts then perfScore - (blockingScripts - 5) * 4
    else perfScore in
  let perfScore := if 50000 <? inlineBytes then perfScore - 15 else perfScore in
  let perfScore := if 150000 <? inlineBytes then perfScore - 20 else perfScore in
  let perfScore :=
    if (0 <? noLazy) && (0 <? totalImages) then
      let ratioNoLazy := js_div noLazy totalImages in
      if Qgt_bool ratioNoLazy (1 # 2) then perfScore - 10 else perfScore
    else perfScore in
  let perfScore :=
    if 0 <? suspectedLarge then perfScore - suspectedLarge * 5
    else perfScore in
  let perfScore := if perfScore <? 0 then 0 else perfScore in
  perfScore.

Definition push (notes : list jsstring) (note : jsstring) : list jsstring :=
  notes ++ [note].

(** The reporter: lines 109-133 of the source. *)
Definition make_notes (totalScripts blockingScripts inlineBytes
    totalImages noLazy suspectedLarge : Z) : list jsstring :=
  let notes := [] in
  let notes :=
    push notes (Number_toString totalScripts ++ lit " <script> tags detected.") in
  let notes :=
    if 0 <? blockingScripts then
      push notes
        (Number_toString blockingScripts
         ++ lit " script(s) without async/defer (possible render-blockers).")
    else push notes (lit "Most scripts appear async/defer " ++ [0x2705]) in
  let notes :=
    if 0 <? inlineBytes then
      push notes
        (lit "Inline JS total ~"
         ++ Number_toString (Math_round (js_div inlineBytes 1024))
         ++ lit "KB.")
    else notes in
  let notes :=
    if 0 <? totalImages then
      push notes
        (Number_toString noLazy ++ lit "/" ++ Number_toString totalImages
         ++ lit " images missing loading=" ++ [c_dquote] ++ lit "lazy"
         ++ [c_dquote] ++ lit ".")
    else push notes (lit "No <img> tags detected.") in
  let notes :=
    if 0 <? suspectedLarge then
      push notes
        (Number_toString suspectedLarge
         ++ lit " image(s) look very large ( >1000px dimension hints ).")
    else notes in
  notes.

Section Analyser.

(** [String.prototype.toLowerCase], a function of the host language; the
    analyser is parametric in it. *)
Variable toLowerCase : jsstring -> jsstring.

Definition srcVal (attrs : jsstring) : jsstring :=
  match exec re_src attrs with
  | Some m => toLowerCase (group1 m)
  | None => []
  end.

(** The condition of the "suspected large" test on the attribute text of
    one image. *)
Definition suspected_large (attrs : jsstring) : bool :=
  let srcVal := srcVal attrs in
  let widthVal := widthVal attrs in
  let heightVal := heightVal attrs in
  (endsWith srcVal (lit ".png") || endsWith srcVal (lit ".jpg")
   || endsWith srcVal (lit ".jpeg"))
  && (and_gt widthVal 1000 || and_gt heightVal 1000).

(** The body of [for (const m of imgMatches)]. *)
Definition image_step (acc : image_counts) (m : match_result)
    : image_counts :=
  let totalImages := ic_total acc + 1 in
  let attrs := or_empty (groups m 1%nat) in
  let noLazy := if negb (hasLazy attrs) then ic_noLazy acc + 1
                else ic_noLazy acc in
  let suspectedLarge :=
    if suspected_large attrs then ic_suspectedLarge acc + 1
    else ic_suspectedLarge acc in
  ImageCounts totalImages noLazy suspectedLarge.

Definition count_images (html : jsstring) : image_counts :=
  fold_left image_step (imgMatches html) (ImageCounts 0 0 0).

(** Everything after the fetch: extraction, scoring and reporting. *)
Definition analyse (url html : jsstring) : AnalysisResult :=
  let sc := count_scripts html in
  let ic := count_images html in
  let totalScripts := sc_total sc in
  let blockingScripts := sc_blocking sc in
  let inlineBytes := sc_inlineBytes sc in
  let totalImages := ic_total ic in
  let noLazy := ic_noLazy ic in
  let suspectedLarge := ic_suspectedLarge ic in
  let perfScore :=
    score totalScripts blockingScripts inlineBytes
          totalImages noLazy suspectedLarge in
  let notes :=
    make_notes totalScripts blockingScripts inlineBytes
               totalImages noLazy suspectedLarge in
  {| url := url;
     totalScripts := totalScripts;
     blockingScripts := blockingScripts;
     inlineScriptKB := Math_round (js_div inlineBytes 1024);
     totalImages := totalImages;
     imagesMissingLazyLoad := noLazy;
     suspectedLargeImages := suspectedLarge;
     performanceSmellScore := perfScore;
     notes := notes |}.

(** [speed_heuristics_checker({ url })], given the behaviour of [fetch]. *)
Definition speed_heuristics_checker
    (fetch : jsstring -> completion Response) (url : jsstring)
    : completion AnalysisResult :=
  await res <- fetch url;
  if negb (ok res) then
    Throw {| message := lit "Failed to fetch " ++ url ++ lit ": "
                        ++ Number_toString (status res) |}
  else
    await html <- text res;
    Return (analyse url html).

End Analyser.

(** A lower-casing of the ASCII letters only, used to run the analyser on
    ASCII inputs. *)
Definition ascii_toLowerCase (s : jsstring) : jsstring :=
  map (fun c => if (65 <=? c) && (c <=? 90) then c + 32 else c) s.

(* ================================================================== *)
(** ** The scorer and the notes as the specification words them *)

Module Spec.

Definition scripts_penalty (totalScripts : Z) : Z :=
  if 10 <? totalScripts then (totalScripts - 10) * 2 else 0.

Definition blocking_penalty (blockingScripts : Z) : Z :=
  if 5 <? blockingScripts then (blockingScripts - 5) * 4 else 0.

Definition inline_penalty (inlineBytes : Z) : Z :=
  if 50000 <? inlineBytes then 15 else 0.

Definition heavy_inline_penalty (inlineBytes : Z) : Z :=
  if 150000 <? inlineBytes then 20 else 0.

Definition lazy_penalty (totalImages noLazy : Z) : Z :=
  if (0 <? totalImages) && Qgt_bool (js_div noLazy totalImages) (1 # 2)
  then 10 else 0.

Definition large_penalty (suspectedLarge : Z) : Z :=
  if 0 <? suspectedLarge then suspectedLarge * 5 else 0.

Definition penalties (totalScripts blockingScripts inlineBytes
    totalImages noLazy suspectedLarge : Z) : Z :=
  scripts_penalty totalScripts + blocking_penalty blockingScripts
  + inline_penalty inlineBytes + heavy_inline_penalty inlineBytes
  + lazy_penalty totalImages noLazy + large_penalty suspectedLarge.

Definition score (totalScripts blockingScripts inlineBytes
    totalImages noLazy suspectedLarge : Z) : Z :=
  Z.max 0 (100 - penalties totalScripts blockingScripts inlineBytes
                           totalImages noLazy suspectedLarge).

(** The notes, in the order of the specification. *)
Definition script_count_note (totalScripts : Z) : jsstring :=
  Number_toString totalScripts ++ lit " <script> tags detected.".

Definition blocking_note (blockingScripts : Z) : jsstring :=
  Number_toString blockingScripts
  ++ lit " script(s) without async/defer (possible render-blockers).".

Definition async_note : jsstring :=
  lit "Most scripts appear async/defer " ++ [0x2705].

Definition inline_note (inlineBytes : Z) : jsstring :=
  lit "Inline JS total ~"
  ++ Number_toString (Math_round (js_div inlineBytes 1024)) ++ lit "KB.".

Definition lazy_note (noLazy totalImages : Z) : jsstring :=
  Number_toString noLazy ++ lit "/" ++ Number_toString totalImages
  ++ lit " images missing loading=" ++ [c_dquote] ++ lit "lazy"
  ++ [c_dquote] ++ lit ".".

Definition no_images_note : jsstring := lit "No <img> tags detected.".

Definition large_note (suspectedLarge : Z) : jsstring :=
  Number_toString suspectedLarge
  ++ lit " image(s) look very large ( >1000px dimension hints ).".

Definition notes (totalScripts blockingScripts inlineBytes
    totalImages noLazy suspectedLarge : Z) : list jsstring :=
  [script_count_note totalScripts]
  ++ [if 0 <? blockingScripts then blocking_note blockingScripts
      else async_note]
  ++ (if 0 <? inlineBytes then [inline_note inlineBytes] else [])
  ++ [if 0 <? totalImages then lazy_note noLazy totalImages
      else no_images_note]
  ++ (if 0 <? suspectedLarge then [large_note suspectedLarge] else []).

End Spec.

(* ================================================================== *)
(** ** The matches of a pattern, as a relation and as texts *)

Module MatchSemantics.

(** [Steps r x y]: the pattern [r] can take the matcher from state [x] to
    state [y].  The relation says which matches exist; the matcher picks
    one of them by its priorities (greedy, lazy, leftmost). *)
Inductive Steps : regex -> mstate -> mstate -> Prop :=
| Steps_Eps x : Steps Eps x x
| Steps_Chr cs x ch tl :
    rest x = ch :: tl -> char_in cs ch = true ->
    Steps (Chr cs) x (advance x ch tl)
| Steps_Bound x : at_boundary x = true -> Steps Bound x x
| Steps_Seq r1 r2 x y z :
    Steps r1 x y -> Steps r2 y z -> Steps (Seq r1 r2) x z
| Steps_Star_stop greedy cs x : Steps (Star greedy cs) x x
| Steps_Star_more greedy cs x ch tl y :
    rest x = ch :: tl -> char_in cs ch = true ->
    Steps (Star greedy cs) (advance x ch tl) y ->
    Steps (Star greedy cs) x y
| Steps_Group n r x y :
    Steps r x y -> Steps (Group n r) x (set_cap n (pos x) (pos y) y).

(** The code unit before the position reached after reading [w]. *)
Definition last_or (pv : option code_unit) (w : jsstring)
    : option code_unit :=
  fold_left (fun _ c => Some c) w pv.

(** [y] is [x] after reading [w]. *)
Definition reads (x : mstate) (w : jsstring) (y : mstate) : Prop :=
  rest x = w ++ rest y
  /\ prev y = last_or (prev x) w
  /\ pos y = pos x + Z.of_nat (length w).

(** The state at the split [pre ++ post] of a text scanned from its
    start. *)
Definition state_at (pre post : jsstring) : mstate :=
  MState (last_or None pre) (Z.of_nat (length pre)) post [].

(** Equality up to the case of ASCII letters, code unit by code unit. *)
Definition same_ignoring_case (a b : jsstring) : Prop :=
  Forall2 (fun p c => canonicalize p = canonicalize c) a b.

(** [Matches r pv p w tl cp]: at index [p], after the code unit [pv] and
    before the text [tl], the pattern [r] can match the text [w], recording
    the capture ranges [cp] (most recent first). *)
Fixpoint Matches (r : regex) (pv : option code_unit) (p : Z)
    (w tl : jsstring) (cp : list (nat * (Z * Z))) : Prop :=
  match r with
  | Eps => w = [] /\ cp = []
  | Chr cs => exists ch, w = [ch] /\ char_in cs ch = true /\ cp = []
  | Bound =>
      w = [] /\ xorb (is_word_opt pv) (is_word_opt (hd_error tl)) = true
      /\ cp = []
  | Seq r1 r2 =>
      exists w1 w2 cp1 cp2,
        w = w1 ++ w2 /\ cp = cp2 ++ cp1
        /\ Matches r1 pv p w1 (w2 ++ tl) cp1
        /\ Matches r2 (last_or pv w1) (p + Z.of_nat (length w1)) w2 tl cp2
  | Star _ cs => Forall (fun ch => char_in cs ch = true) w /\ cp = []
  | Group n r' =>
      exists cp',
        cp = (n, (p, p + Z.of_nat (length w))) :: cp'
        /\ Matches r' pv p w tl cp'
  end.

End MatchSemantics.

Import MatchSemantics.

(* ================================================================== *)
(** ** The vocabulary of the properties *)

(** What the loops read of a match: [match[1] || ''] and
    [match[2] || '']. *)
Definition script_attrs (m : match_result) : jsstring :=
  or_empty (groups m 1%nat).
Definition script_body (m : match_result) : jsstring :=
  or_empty (groups m 2%nat).
Definition img_attrs (m : match_result) : jsstring :=
  or_empty (groups m 1%nat).

(** The classification of one script by its attribute text. *)
Definition is_blocking (attrs : jsstring) : bool :=
  negb (hasDefer attrs) && negb (hasAsync attrs).
Definition is_inline (attrs : jsstring) : bool := negb (hasSrc attrs).

(** The number of elements of a list that pass a test, and the sum of a
    list of integers. *)
Definition count {A : Type} (f : A -> bool) (l : list A) : Z :=
  Z.of_nat (length (filter f l)).

Definition Zsum (l : list Z) : Z := fold_right Z.add 0 l.

(** A [\b] position between two pieces of text: exactly one of the code
    unit before it and the code unit after it is a word character (the
    ends of the text count as non-word). *)
Definition boundary_between (before after : jsstring) : bool :=
  xorb (is_word_opt (last_or None before)) (is_word_opt (hd_error after)).

(** [s] contains the token [tok]: an occurrence of [tok], up to the case of
    ASCII letters, with a word boundary on each side. *)
Definition contains_token (tok s : jsstring) : Prop :=
  exists pre mid post,
    s = pre ++ mid ++ post
    /\ same_ignoring_case tok mid
    /\ boundary_between pre (mid ++ post) = true
    /\ boundary_between (pre ++ mid) post = true.

(** One of the two quote characters; a text of white space only. *)
Definition is_quote (c : code_unit) : Prop := c = c_dquote \/ c = c_squote.

Definition all_space (ws : jsstring) : Prop :=
  Forall (fun c => is_space c = true) ws.

(** [attrs] contains the attribute [name] with the quoted value [value]:
    the name, up to the case of ASCII letters, starting at a word boundary;
    optional white space, [=], optional white space; an opening quote
    character, the value, a closing quote character (either of the two
    quote characters at each end). *)
Definition quoted_attribute (name attrs value : jsstring) : Prop :=
  exists pre nm ws1 ws2 q1 q2 post,
    attrs = pre ++ (nm ++ ws1 ++ [c_eq] ++ ws2 ++ [q1]) ++ value
            ++ [q2] ++ post
    /\ same_ignoring_case name nm
    /\ boundary_between pre nm = true
    /\ all_space ws1 /\ all_space ws2 /\ is_quote q1 /\ is_quote q2.

(** The shape shared by the attribute patterns: [\b], the name, [\s*=\s*],
    a quote, a value pattern, a quote. *)
Definition attr_pattern (name : jsstring) (value : regex) : regex :=
  Bound >> Lits name >> eq_quote >> value >> Chr quote.

(** A non-empty text without quote characters. *)
Definition unquoted_text (v : jsstring) : Prop :=
  v <> [] /\ Forall (fun c => ~ is_quote c) v.

(** A non-empty text of decimal digits. *)
Definition decimal_digits (v : jsstring) : Prop :=
  v <> [] /\ Forall (fun c => is_digit c = true) v.

(** The text of a script element, as the script pattern reads it: an
    opening [<script], not followed by a word character; the attribute
    text, without [>]; [>]; the body; a closing [</script>]. *)
Definition script_element (open attrs body close : jsstring) : Prop :=
  same_ignoring_case (lit "<script") open
  /\ Forall (fun c => c <> c_gt) attrs
  /\ is_word_opt (hd_error (attrs ++ [c_gt])) = false
  /\ same_ignoring_case (lit "</script>") close.

(** The text of an image element, as the image pattern reads it. *)
Definition img_element (open attrs : jsstring) : Prop :=
  same_ignoring_case (lit "<img") open
  /\ Forall (fun c => c <> c_gt) attrs
  /\ is_word_opt (hd_error (attrs ++ [c_gt])) = false.

(** The inline byte weight accumulated by the script loop. *)
Definition inlineBytes_of (html : jsstring) : Z :=
  sc_inlineBytes (count_scripts html).

(** The error thrown for a fetched response whose status is not a
    success. *)
Definition FetchFailure (url : jsstring) (status : Z) : Error :=
  {| message := lit "Failed to fetch " ++ url ++ lit ": "
                ++ Number_toString status |}.







(** The attribute text and the body of each matched script, in order. *)
Definition scripts_of (html : jsstring) : list (jsstring * jsstring) :=
  map (fun m => (script_attrs m, script_body m)) (scriptMatches html).




(** Two fetches of one page: a 404 response, and two successful responses
    with the same text and different statuses. *)
Definition some_url : jsstring := lit "https://example.com/".

Definition h1_page : jsstring :=
  lit "<html><SCRIPT src='a.js' defer></script><script>var x = 1;</script>"
  ++ lit "<img src='photo.JPG' width='1200'></html>".

Definition fetch_404 (url : jsstring) : completion Response :=
  Return {| status := 404; text := Return (lit "Not Found") |}.

Definition fetch_200 (url : jsstring) : completion Response :=
  Return {| status := 200; text := Return h1_page |}.

Definition fetch_203 (url : jsstring) : completion Response :=
  Return {| status := 203; text := Return h1_page |}.

(* ================================================================== *)
(** ** The route of the analyser

    [app.get('/tools/speed_heuristics_checker', ...)]: the handler reads
    [req.query.url], answers 400 when it is missing or not a string, calls
    the analyser otherwise, and answers 500 with the message of whatever
    the call throws. *)

(** A value of [req.query]: a string, or one of the arrays and nested
    objects that the query parser builds; [None] is [undefined]. *)
Inductive query_value : Type :=
| QueryString (s : jsstring)
| QueryOther.

(** [!url] and [typeof url !== 'string']. *)
Definition query_falsy (url : option query_value) : bool :=
  match url with
  | None => true
  | Some (QueryString []) => true
  | Some _ => false
  end.

Definition query_not_string (url : option query_value) : bool :=
  match url with
  | Some (QueryString _) => false
  | _ => true
  end.

(** What a [catch] clause receives: an [Error] object or any other
    value. *)
Inductive thrown_value : Type :=
| ThrownError (e : Error)
| ThrownOther.

(** [error instanceof Error ? error.message : 'Analysis failed'] *)
Definition error_message_of (error : thrown_value) : jsstring :=
  match error with
  | ThrownError e => message e
  | ThrownOther => lit "Analysis failed"
  end.

(** The body passed to [res.json] and the response sent. *)
Inductive json_body : Type :=
| ErrorBody (error : jsstring)
| ResultBody (result : AnalysisResult).

Record http_response : Type := {
  code : Z;
  body : json_body
}.

Definition speed_heuristics_route (toLowerCase : jsstring -> jsstring)
    (fetch : jsstring -> completion Response) (url : option query_value)
    : http_response :=
  if query_falsy url || query_not_string url then
    {| code := 400; body := ErrorBody (lit "Missing or invalid url") |}
  else
    match url with
    | Some (QueryString url) =>
        match speed_heuristics_checker toLowerCase fetch url with
        | Return result => {| code := 200; body := ResultBody result |}
        | Throw error =>
            {| code := 500;
               body := ErrorBody (error_message_of (ThrownError error)) |}
        end
    | _ => {| code := 400; body := ErrorBody (lit "Missing or invalid url") |}
    end.

(** A fetch that fails at the network level, and one whose body cannot be
    read. *)
Definition network_error : Error := {| message := lit "fetch failed" |}.

Definition fetch_rejects (url : jsstring) : completion Response :=
  Throw network_error.

Definition fetch_body_fails (url : jsstring) : completion Response :=
  Return {| status := 200; text := Throw network_error |}.

(** [tok] occurs in [s], up to the case of ASCII letters. *)
Definition occurs_ignoring_case (tok s : jsstring) : Prop :=
  exists pre mid post, s = pre ++ mid ++ post /\ same_ignoring_case tok mid.

(** An attribute text written without quote characters. *)
Definition unquoted_attrs : jsstring :=
  lit " src=photo.png width=2000 loading=lazy".

(** The result for a page in which nothing is matched. *)
Definition clean_result (url : jsstring) : AnalysisResult :=
  {| url := url;
     totalScripts := 0;
     blockingScripts := 0;
     inlineScriptKB := 0;
     totalImages := 0;
     imagesMissingLazyLoad := 0;
     suspectedLargeImages := 0;
     performanceSmellScore := 100;
     notes := [lit "0 <script> tags detected.";
               lit "Most scripts appear async/defer " ++ [0x2705];
               lit "No <img> tags detected."] |}.

(** A page whose only image tag stands inside the body of a script. *)
Definition image_in_script_page : jsstring :=
  lit "<script>document.write('<img src=a.png>')</script>".

(* ================================================================== *)
(** ** The greeting tool

    [sgcgreeting({ name, language })] of the compiled server.  The value
    of [Math.floor(Math.random() * 3)] is an input of the model, and
    [toLowerCase] a parameter as before. *)

Record GreetingResult : Type := {
  greeting : jsstring;
  language : jsstring
}.

(** [['english', 'spanish', 'french']] *)
Definition greeting_languages : list jsstring :=
  [lit "english"; lit "spanish"; lit "french"].

(** [array[i]]: [undefined] outside the array. *)
Definition js_index {A : Type} (array : list A) (i : Z) : option A :=
  if i <? 0 then None else nth_error array (Z.to_nat i).

(** The error of [undefined.toLowerCase()]. *)
Definition TypeError_toLowerCase : Error :=
  {| message :=
       lit "Cannot read properties of undefined (reading 'toLowerCase')" |}.

Definition sgcgreeting (toLowerCase : jsstring -> jsstring)
    (random_index : Z) (name : jsstring) (language : option jsstring)
    : completion GreetingResult :=
  let selectedLanguage :=
    match language with
    | Some (c :: s) => Some (c :: s)
    | _ => js_index greeting_languages random_index
    end in
  match selectedLanguage with
  | None => Throw TypeError_toLowerCase
  | Some selectedLanguage =>
      let greeting :=
        if jsstring_eqb (toLowerCase selectedLanguage) (lit "spanish") then
          [0xA1] ++ lit "Hola, " ++ name ++ lit "! " ++ [0xBF] ++ lit "C"
          ++ [0xF3] ++ lit "mo est" ++ [0xE1] ++ lit "s?"
        else if jsstring_eqb (toLowerCase selectedLanguage) (lit "french")
        then
          lit "Bonjour, " ++ name ++ lit "! Comment " ++ [0xE7]
          ++ lit "a va?"
        else lit "Hello, " ++ name ++ lit "! How are you?" in
      Return {| greeting := greeting; language := selectedLanguage |}
  end.

(** The three greetings. *)
Definition hola (name : jsstring) : jsstring :=
  [0xA1] ++ lit "Hola, " ++ name ++ lit "! " ++ [0xBF] ++ lit "C"
  ++ [0xF3] ++ lit "mo est" ++ [0xE1] ++ lit "s?".

Definition bonjour (name : jsstring) : jsstring :=
  lit "Bonjour, " ++ name ++ lit "! Comment " ++ [0xE7] ++ lit "a va?".

Definition hello (name : jsstring) : jsstring :=
  lit "Hello, " ++ name ++ lit "! How are you?".

(* ================================================================== *)
(** ** Pattern objects and the state of an invocation

    A pattern literal evaluates to a new object each time it is reached.
    The object carries [lastIndex], which [exec] reads and writes when the
    pattern has the [g] flag and which outlives the call that wrote it.
    Here the analyser is written a second time, statement by statement,
    over a store of such objects, so that what an invocation reads from
    the store, and what it leaves there, can be stated. *)

Record RegExpObject : Type := {
  source : regex;
  global : bool;
  lastIndex : Z
}.

(** The store: every pattern object created so far, an address being a
    position in the list. *)
Definition store : Type := list RegExpObject.

Definition State (A : Type) : Type := store -> A * store.

Definition st_ret {A : Type} (a : A) : State A := fun w => (a, w).

Definition st_bind {A B : Type} (m : State A) (k : A -> State B)
    : State B :=
  fun w => let (a, w') := m w in k a w'.

Notation "'let*' x := m 'in' k" := (st_bind m (fun x => k))
  (at level 10, x name, m at level 100, k at level 200).

Definition no_object : RegExpObject :=
  {| source := Eps; global := false; lastIndex := 0 |}.

Definition get_object (a : nat) : State RegExpObject :=
  fun w => (nth a w no_object, w).

Fixpoint update (a : nat) (f : RegExpObject -> RegExpObject) (w : store)
    : store :=
  match w, a with
  | [], _ => []
  | o :: tl, O => f o :: tl
  | o :: tl, S a' => o :: update a' f tl
  end.

Definition set_lastIndex (a : nat) (i : Z) : State unit :=
  fun w =>
    (tt, update a (fun o => {| source := source o; global := global o;
                               lastIndex := i |}) w).

(** The evaluation of a pattern literal: a new object, [lastIndex] 0. *)
Definition new_RegExp (r : regex) (g : bool) : State nat :=
  fun w =>
    (length w, w ++ [{| source := r; global := g; lastIndex := 0 |}]).

(** The scan from the index [i] of the input. *)
Definition search_from (r : regex) (input : jsstring) (i : Z)
    : option (Z * mstate) :=
  search r (last_or None (firstn (Z.to_nat i) input)) i
         (skipn (Z.to_nat i) input).

(** RegExpBuiltinExec: the scan starts at [lastIndex] for a pattern with
    the [g] flag and at 0 for one without; with the [g] flag, [lastIndex]
    is set to the end of the match, and to 0 when there is none. *)
Definition RegExpBuiltinExec (a : nat) (s : jsstring)
    : State (option match_result) :=
  let* R := get_object a in
  let i := if global R then lastIndex R else 0 in
  if Z.of_nat (length s) <? i then
    let* _ := (if global R then set_lastIndex a 0 else st_ret tt) in
    st_ret None
  else
    match search_from (source R) s i with
    | None =>
        let* _ := (if global R then set_lastIndex a 0 else st_ret tt) in
        st_ret None
    | Some (start, y) =>
        let* _ := (if global R then set_lastIndex a (pos y)
                   else st_ret tt) in
        st_ret (Some (result_of s start y))
    end.

(** [r.test(s)] and, for a pattern without the [g] flag, [s.match(r)]. *)
Definition RegExp_test (a : nat) (s : jsstring) : State bool :=
  let* m := RegExpBuiltinExec a s in
  st_ret (match m with Some _ => true | None => false end).

Definition String_match (s : jsstring) (a : nat)
    : State (option match_result) :=
  RegExpBuiltinExec a s.

(** The iterator of [matchAll], run to its end by the spread: [exec] on
    the iterator's own object until it fails; after an empty match
    [lastIndex] is moved one code unit further.  [fuel] bounds the number
    of steps. *)
Fixpoint RegExpStringIterator (fuel : nat) (c : nat) (s : jsstring)
    (g : bool) : State (list match_result) :=
  match fuel with
  | O => st_ret []
  | S fuel' =>
      let* m := RegExpBuiltinExec c s in
      match m with
      | None => st_ret []
      | Some m =>
          if g then
            let* _ :=
              (if end_index m =? index m then
                 let* R := get_object c in
                 set_lastIndex c (lastIndex R + 1)
               else st_ret tt) in
            let* tl := RegExpStringIterator fuel' c s g in
            st_ret (m :: tl)
          else st_ret [m]
      end
  end.

(** [[...s.matchAll(r)]]: the iterator works on a copy of the pattern
    object, which starts at the [lastIndex] of the original.  (Without the
    [g] flag [matchAll] throws; every use in the source has the flag.) *)
Definition String_matchAll (s : jsstring) (a : nat)
    : State (list match_result) :=
  let* R := get_object a in
  let* c := (fun w => (length w, w ++ [R])) in
  RegExpStringIterator (S (length s)) c s (global R).

(** A [for ... of] loop over an array, with its variables as an
    accumulator. *)
Fixpoint for_of {A B : Type} (body : B -> A -> State B) (l : list A)
    (acc : B) : State B :=
  match l with
  | [] => st_ret acc
  | x :: tl => let* acc' := body acc x in for_of body tl acc'
  end.

(** The body of the script loop: each of its three pattern literals is
    evaluated on every iteration. *)
Definition script_step_st (acc : script_counts) (m : match_result)
    : State script_counts :=
  let totalScripts := sc_total acc + 1 in
  let attrs := or_empty (groups m 1%nat) in
  let body := or_empty (groups m 2%nat) in
  let* re := new_RegExp re_defer false in
  let* hasDefer := RegExp_test re attrs in
  let* re := new_RegExp re_async false in
  let* hasAsync := RegExp_test re attrs in
  let* re := new_RegExp re_has_src false in
  let* hasSrc := RegExp_test re attrs in
  let blockingScripts :=
    if negb hasDefer && negb hasAsync
    then sc_blocking acc + 1 else sc_blocking acc in
  let inlineBytes :=
    if negb hasSrc
    then sc_inlineBytes acc + byteLength body else sc_inlineBytes acc in
  st_ret (ScriptCounts totalScripts blockingScripts inlineBytes).

Section StatefulAnalyser.

Variable toLowerCase : jsstring -> jsstring.

(** The body of the image loop. *)
Definition image_step_st (acc : image_counts) (m : match_result)
    : State image_counts :=
  let totalImages := ic_total acc + 1 in
  let attrs := or_empty (groups m 1%nat) in
  let* re := new_RegExp re_lazy false in
  let* hasLazy := RegExp_test re attrs in
  let noLazy := if negb hasLazy then ic_noLazy acc + 1
                else ic_noLazy acc in
  let* re := new_RegExp re_src false in
  let* srcMatch := String_match attrs re in
  let* re := new_RegExp re_width false in
  let* widthMatch := String_match attrs re in
  let* re := new_RegExp re_height false in
  let* heightMatch := String_match attrs re in
  let srcVal :=
    match srcMatch with Some m => toLowerCase (group1 m) | None => [] end in
  let widthVal :=
    match widthMatch with
    | Some m => Some (parseInt (group1 m))
    | None => None
    end in
  let heightVal :=
    match heightMatch with
    | Some m => Some (parseInt (group1 m))
    | None => None
    end in
  let suspectedLarge :=
    if (endsWith srcVal (lit ".png") || endsWith srcVal (lit ".jpg")
        || endsWith srcVal (lit ".jpeg"))
       && (and_gt widthVal 1000 || and_gt heightVal 1000)
    then ic_suspectedLarge acc + 1
    else ic_suspectedLarge acc in
  st_ret (ImageCounts totalImages noLazy suspectedLarge).

(** Lines 24-146 of the source: the two extraction loops, the scorer and
    the reporter. *)
Definition analyse_st (url html : jsstring) : State AnalysisResult :=
  let* re := new_RegExp re_script true in
  let* scriptMatches := String_matchAll html re in
  let* sc := for_of script_step_st scriptMatches (ScriptCounts 0 0 0) in
  let totalScripts := sc_total sc in
  let blockingScripts := sc_blocking sc in
  let inlineBytes := sc_inlineBytes sc in
  let* re := new_RegExp re_img true in
  let* imgMatches := String_matchAll html re in
  let* ic := for_of image_step_st imgMatches (ImageCounts 0 0 0) in
  let totalImages := ic_total ic in
  let noLazy := ic_noLazy ic in
  let suspectedLarge := ic_suspectedLarge ic in
  let perfScore :=
    score totalScripts blockingScripts inlineBytes
          totalImages noLazy suspectedLarge in
  let notes :=
    make_notes totalScripts blockingScripts inlineBytes
               totalImages noLazy suspectedLarge in
  st_ret {| url := url;
            totalScripts := totalScripts;
            blockingScripts := blockingScripts;
            inlineScriptKB := Math_round (js_div inlineBytes 1024);
            totalImages := totalImages;
            imagesMissingLazyLoad := noLazy;
            suspectedLargeImages := suspectedLarge;
            performanceSmellScore := perfScore;
            notes := notes |}.

(** One invocation of [speed_heuristics_checker], given the behaviour of
    [fetch], in a store. *)
Definition speed_heuristics_checker_st
    (fetch : jsstring -> completion Response) (url : jsstring)
    : State (completion AnalysisResult) :=
  match fetch url with
  | Throw e => st_ret (Throw e)
  | Return res =>
      if negb (ok res) then
        st_ret (Throw {| message := lit "Failed to fetch " ++ url
                                    ++ lit ": "
                                    ++ Number_toString (status res) |})
      else
        match text res with
        | Throw e => st_ret (Throw e)
        | Return html =>
            let* result := analyse_st url html in
            st_ret (Return result)
        end
  end.

End StatefulAnalyser.

(** [m] returns [v] in every store, and leaves the store as it was but for
    objects added at its end. *)
Definition returns {A : Type} (m : State A) (v : A) : Prop :=
  forall w : store, exists objs : store, m w = (v, w ++ objs).

(** A store holding one pattern object with the [g] flag that an earlier
    scan has left at index 5, and a text in which the pattern matches at
    index 0 only. *)
Definition used_store : store :=
  [{| source := re_img; global := true; lastIndex := 5 |}].

Definition one_img : jsstring := lit "<img>".

(* ================================================================== *)
(** ** The attributes read of an image *)

(** [attrs] contains the attribute [name], with a quoted value [value]
    that satisfies [valid], at the position that follows [pre]. *)
Definition attribute_at (name : jsstring) (valid : jsstring -> Prop)
    (attrs pre value : jsstring) : Prop :=
  valid value
  /\ exists nm ws1 ws2 q1 q2 post,
       attrs = pre ++ (nm ++ ws1 ++ [c_eq] ++ ws2 ++ [q1]) ++ value
               ++ [q2] ++ post
       /\ same_ignoring_case name nm
       /\ boundary_between pre nm = true
       /\ all_space ws1 /\ all_space ws2 /\ is_quote q1 /\ is_quote q2.






(* ================================================================== *)
(** ** Properties of the scorer *)

(** The quotient test of the source, on integers. *)
Lemma ratio_gt_half (noLazy totalImages : Z) :
  0 < totalImages ->
  Qgt_bool (js_div noLazy totalImages) (1 # 2) = (totalImages <? 2 * noLazy).
Proof.
  intros Hpos. unfold Qgt_bool, js_div.
  destruct totalImages as [|p|p]; try lia.
  destruct (Qle_bool (inject_Z noLazy / inject_Z (Z.pos p)) (1 # 2)) eqn:E.
  - apply Qle_bool_iff in E. unfold Qle, Qdiv, Qmult, Qinv in E. simpl in E.
    symmetry. apply Z.ltb_ge. lia.
  - assert (H : ~ (inject_Z noLazy / inject_Z (Z.pos p) <= 1 # 2)%Q).
    { intro H. apply Qle_bool_iff in H. congruence. }
    unfold Qle, Qdiv, Qmult, Qinv in H. simpl in H.
    symmetry. apply Z.ltb_lt. lia.
Qed.

Lemma ratio_gt_half_noLazy (noLazy totalImages : Z) :
  0 < totalImages ->
  Qgt_bool (js_div noLazy totalImages) (1 # 2) = true -> 0 < noLazy.
Proof.
  intros Hpos H. rewrite ratio_gt_half in H by assumption.
  apply Z.ltb_lt in H. lia.
Qed.

Ltac split_ltb :=
  repeat match goal with
  | |- context [?a <? ?b] =>
      let E := fresh "E" in
      destruct (a <? b) eqn:E;
      [apply Z.ltb_lt in E | apply Z.ltb_ge in E]
  end.

Lemma score_eq_spec (totalScripts blockingScripts inlineBytes
    totalImages noLazy suspectedLarge : Z) :
  score totalScripts blockingScripts inlineBytes
        totalImages noLazy suspectedLarge
  = Spec.score totalScripts blockingScripts inlineBytes
               totalImages noLazy suspectedLarge.
Proof.
  rename totalScripts into ts, blockingScripts into bs, inlineBytes into ib,
    totalImages into ti, noLazy into nl, suspectedLarge into sl.
  unfold score, Spec.score, Spec.penalties, Spec.scripts_penalty,
    Spec.blocking_penalty, Spec.inline_penalty, Spec.heavy_inline_penalty,
    Spec.lazy_penalty, Spec.large_penalty.
  assert (Hlazy :
    (if (0 <? nl) && (0 <? ti)
     then if Qgt_bool (js_div nl ti) (1 # 2) then true else false
     else false)
    = ((0 <? ti) && Qgt_bool (js_div nl ti) (1 # 2))).
  { destruct (0 <? ti) eqn:Eti; [|now rewrite andb_false_r].
    apply Z.ltb_lt in Eti. rewrite andb_true_r. simpl.
    destruct (Qgt_bool (js_div nl ti) (1 # 2)) eqn:Eq.
    - apply ratio_gt_half_noLazy in Eq; [|assumption].
      apply Z.ltb_lt in Eq. now rewrite Eq.
    - now destruct (0 <? nl). }
  rewrite <- Hlazy. clear Hlazy.
  destruct ((0 <? nl) && (0 <? ti));
    [destruct (Qgt_bool (js_div nl ti) (1 # 2))|]; cbv zeta;
    split_ltb; lia.
Qed.

(** The score is between 0 and 100, whatever the counts: a penalty is only
    subtracted when it is positive, and the result is clamped at 0. *)
Lemma score_range :
  forall totalScripts blockingScripts inlineBytes
         totalImages noLazy suspectedLarge : Z,
    0 <= score totalScripts blockingScripts inlineBytes
               totalImages noLazy suspectedLarge <= 100.
Proof.
  intros ts bs ib ti nl sl. unfold score.
  destruct ((0 <? nl) && (0 <? ti));
    [destruct (Qgt_bool (js_div nl ti) (1 # 2))|]; cbv zeta;
    split_ltb; lia.
Qed.

(* ================================================================== *)
(** ** The two extraction loops *)

Lemma count_nil {A : Type} (f : A -> bool) : count f [] = 0.
Proof. reflexivity. Qed.

Lemma count_cons {A : Type} (f : A -> bool) (a : A) (l : list A) :
  count f (a :: l) = (if f a then 1 else 0) + count f l.
Proof.
  unfold count. simpl. destruct (f a); simpl length; lia.
Qed.

Lemma count_bounds {A : Type} (f : A -> bool) (l : list A) :
  0 <= count f l <= Z.of_nat (length l).
Proof.
  induction l as [|a l IH].
  - rewrite count_nil. simpl. lia.
  - rewrite count_cons. simpl length. destruct (f a); lia.
Qed.

Lemma byteLength_nonneg (s : jsstring) : 0 <= byteLength s.
Proof.
  assert (H : forall n s, (length s <= n)%nat -> 0 <= byteLength s).
  { clear s. induction n as [|n IH]; intros [|c tl] Hlen;
      cbn [byteLength length] in *; try lia.
    assert (Htl : 0 <= byteLength tl) by (apply IH; lia).
    destruct (c <? 128); [lia|]. destruct (c <? 2048); [lia|].
    destruct (is_high_surrogate c); [|lia].
    destruct tl as [|d tl']; [lia|].
    destruct (is_low_surrogate d); [|lia].
    assert (0 <= byteLength tl') by (apply IH; cbn [length] in Hlen; lia).
    lia. }
  apply (H (length s)). lia.
Qed.

Lemma Zsum_byteLength_nonneg (l : list jsstring) :
  0 <= Zsum (map byteLength l).
Proof.
  induction l as [|a l IH]; simpl; [lia|].
  pose proof (byteLength_nonneg a). lia.
Qed.

(** The script loop, from any starting value of its counters. *)
Lemma script_loop (ms : list match_result) (acc : script_counts) :
  let out := fold_left script_step ms acc in
  sc_total out = sc_total acc + Z.of_nat (length ms)
  /\ sc_blocking out
     = sc_blocking acc + count (fun m => is_blocking (script_attrs m)) ms
  /\ sc_inlineBytes out
     = sc_inlineBytes acc
       + Zsum (map (fun m => byteLength (script_body m))
                   (filter (fun m => is_inline (script_attrs m)) ms)).
Proof.
  revert acc. induction ms as [|m ms IH]; intros acc; cbv zeta.
  - simpl. rewrite count_nil. repeat split; lia.
  - simpl fold_left. specialize (IH (script_step acc m)). cbv zeta in IH.
    destruct IH as (Ht & Hb & Hi). rewrite Ht, Hb, Hi. clear Ht Hb Hi.
    rewrite count_cons. simpl filter. simpl length.
    unfold script_step; cbn [sc_total sc_blocking sc_inlineBytes].
    fold (script_attrs m) (script_body m).
    fold (is_blocking (script_attrs m)) (is_inline (script_attrs m)).
    repeat split.
    + lia.
    + destruct (is_blocking (script_attrs m)); lia.
    + destruct (is_inline (script_attrs m)); simpl; lia.
Qed.

Section ImageLoop.

Variable toLowerCase : jsstring -> jsstring.

(** The image loop, from any starting value of its counters. *)
Lemma image_loop (ms : list match_result) (acc : image_counts) :
  let out := fold_left (image_step toLowerCase) ms acc in
  ic_total out = ic_total acc + Z.of_nat (length ms)
  /\ ic_noLazy out
     = ic_noLazy acc + count (fun m => negb (hasLazy (img_attrs m))) ms
  /\ ic_suspectedLarge out
     = ic_suspectedLarge acc
       + count (fun m => suspected_large toLowerCase (img_attrs m)) ms.
Proof.
  revert acc. induction ms as [|m ms IH]; intros acc; cbv zeta.
  - simpl. rewrite !count_nil. repeat split; lia.
  - simpl fold_left. specialize (IH (image_step toLowerCase acc m)).
    cbv zeta in IH.
    destruct IH as (Ht & Hn & Hl). rewrite Ht, Hn, Hl. clear Ht Hn Hl.
    rewrite !count_cons. simpl length.
    unfold image_step; cbn [ic_total ic_noLazy ic_suspectedLarge].
    fold (img_attrs m).
    repeat split.
    + lia.
    + destruct (hasLazy (img_attrs m)); cbn [negb]; lia.
    + destruct (suspected_large toLowerCase (img_attrs m)); lia.
Qed.

End ImageLoop.

(** The counters after the loops, as counts over the matched elements. *)
Lemma count_scripts_spec (html : jsstring) :
  sc_total (count_scripts html) = Z.of_nat (length (scriptMatches html))
  /\ sc_blocking (count_scripts html)
     = count (fun m => is_blocking (script_attrs m)) (scriptMatches html)
  /\ sc_inlineBytes (count_scripts html)
     = Zsum (map (fun m => byteLength (script_body m))
                 (filter (fun m => is_inline (script_attrs m))
                         (scriptMatches html))).
Proof.
  unfold count_scripts.
  destruct (script_loop (scriptMatches html) (ScriptCounts 0 0 0))
    as (Ht & Hb & Hi).
  simpl in Ht, Hb, Hi. auto.
Qed.

Lemma count_images_spec (toLowerCase : jsstring -> jsstring)
    (html : jsstring) :
  ic_total (count_images toLowerCase html)
  = Z.of_nat (length (imgMatches html))
  /\ ic_noLazy (count_images toLowerCase html)
     = count (fun m => negb (hasLazy (img_attrs m))) (imgMatches html)
  /\ ic_suspectedLarge (count_images toLowerCase html)
     = count (fun m => suspected_large toLowerCase (img_attrs m))
             (imgMatches html).
Proof.
  unfold count_images.
  destruct (image_loop toLowerCase (imgMatches html) (ImageCounts 0 0 0))
    as (Ht & Hn & Hl).
  simpl in Ht, Hn, Hl. auto.
Qed.

(* ================================================================== *)
(** ** What the matcher finds *)

Module MatcherFacts.

#[local] Hint Constructors Steps : core.

Lemma mstate_eta (x : mstate) :
  MState (prev x) (pos x) (rest x) (caps x) = x.
Proof. now destruct x. Qed.

(** One unfolding of the repetition. *)
Lemma repeat_matcher_unfold greedy cs pv p s cp c :
  repeat_matcher greedy cs pv p s cp c
  = let more :=
      match s with
      | ch :: tl =>
          if char_in cs ch
          then repeat_matcher greedy cs (Some ch) (p + 1) tl cp c
          else None
      | [] => None
      end in
    if greedy then
      match more with Some z => Some z | None => c (MState pv p s cp) end
    else
      match c (MState pv p s cp) with Some z => Some z | None => more end.
Proof. destruct s; reflexivity. Qed.

Lemma repeat_matcher_sound greedy cs s :
  forall pv p cp c z,
    repeat_matcher greedy cs pv p s cp c = Some z ->
    exists y, Steps (Star greedy cs) (MState pv p s cp) y /\ c y = Some z.
Proof.
  induction s as [|ch tl IH]; intros pv p cp c z H;
    rewrite repeat_matcher_unfold in H; cbv zeta in H.
  - destruct greedy.
    + exists (MState pv p [] cp). auto.
    + destruct (c (MState pv p [] cp)) eqn:E; [|discriminate].
      exists (MState pv p [] cp). split; [auto | congruence].
  - assert (Hmore : forall z',
      (if char_in cs ch
       then repeat_matcher greedy cs (Some ch) (p + 1) tl cp c
       else None) = Some z' ->
      exists y, Steps (Star greedy cs) (MState pv p (ch :: tl) cp) y
                /\ c y = Some z').
    { intros z' Hm. destruct (char_in cs ch) eqn:Ein; [|discriminate].
      apply IH in Hm. destruct Hm as (y & Hy & Hc).
      exists y. split; [|assumption].
      eapply Steps_Star_more with (ch := ch) (tl := tl); eauto. }
    destruct greedy.
    + destruct (if char_in cs ch then _ else None) eqn:Em.
      * apply Hmore. congruence.
      * exists (MState pv p (ch :: tl) cp). auto.
    + destruct (c (MState pv p (ch :: tl) cp)) eqn:Ec.
      * exists (MState pv p (ch :: tl) cp). split; [auto | congruence].
      * apply Hmore. assumption.
Qed.

(** Soundness: a result of the matcher is a result of its continuation at
    a state the pattern leads to. *)
Theorem matcher_sound (r : regex) :
  forall x c z,
    matcher r x c = Some z -> exists y, Steps r x y /\ c y = Some z.
Proof.
  induction r as [|cs| |r1 IH1 r2 IH2|greedy cs|n r IH]; intros x c z H;
    simpl in H.
  - eauto.
  - destruct (rest x) as [|ch tl] eqn:Er; [discriminate|].
    destruct (char_in cs ch) eqn:Ein; [|discriminate]. eauto.
  - destruct (at_boundary x) eqn:Eb; [|discriminate]. eauto.
  - apply IH1 in H. destruct H as (y & Hy & H).
    apply IH2 in H. destruct H as (y' & Hy' & H). eauto.
  - apply repeat_matcher_sound in H. now rewrite mstate_eta in H.
  - apply IH in H. destruct H as (y & Hy & H). eauto.
Qed.

(** Completeness: when the pattern leads to a state that the continuation
    accepts, the matcher does not fail. *)
Theorem matcher_complete (r : regex) (x y : mstate) :
  Steps r x y ->
  forall c, c y <> None -> matcher r x c <> None.
Proof.
  induction 1 as [x|cs x ch tl Hr Hin|x Hb|r1 r2 x y z _ IH1 _ IH2
                 |greedy cs x|greedy cs x ch tl y Hr Hin _ IH|n r x y _ IH];
    intros c Hc; simpl.
  - assumption.
  - now rewrite Hr, Hin.
  - now rewrite Hb.
  - apply IH1. apply IH2. assumption.
  - rewrite repeat_matcher_unfold. cbv zeta. rewrite mstate_eta.
    destruct greedy.
    + destruct (match rest x with [] => None | _ => _ end); [discriminate|].
      assumption.
    + destruct (c x); [discriminate | contradiction].
  - rewrite repeat_matcher_unfold. cbv zeta. rewrite Hr, Hin.
    specialize (IH c Hc). simpl in IH.
    destruct (repeat_matcher greedy cs (Some ch) (pos x + 1) tl (caps x) c);
      [|contradiction].
    destruct greedy; [discriminate|].
    match goal with |- match ?e with _ => _ end <> None => destruct e end;
      discriminate.
  - apply IH. assumption.
Qed.

(** *** The shape of a match *)

Lemma last_or_app pv w1 w2 :
  last_or pv (w1 ++ w2) = last_or (last_or pv w1) w2.
Proof. apply fold_left_app. Qed.

Lemma last_or_snoc pv w c : last_or pv (w ++ [c]) = Some c.
Proof. now rewrite last_or_app. Qed.

Lemma reads_nil x : reads x [] x.
Proof. unfold reads. simpl. repeat split. lia. Qed.

Lemma reads_advance x ch tl : rest x = ch :: tl -> reads x [ch] (advance x ch tl).
Proof. intros H. unfold reads. simpl. auto. Qed.

Lemma reads_trans x w1 y w2 z :
  reads x w1 y -> reads y w2 z -> reads x (w1 ++ w2) z.
Proof.
  intros (R1 & P1 & N1) (R2 & P2 & N2). unfold reads.
  rewrite R1, R2, P2, P1, N2, N1, last_or_app, length_app, <- app_assoc.
  repeat split. lia.
Qed.

Lemma reads_set_cap x w y n a b : reads x w y -> reads x w (set_cap n a b y).
Proof. intros H. exact H. Qed.

(** The states of a match are related by the text it consumed. *)
Lemma Steps_reads r x y : Steps r x y -> exists w, reads x w y.
Proof.
  induction 1 as [x|cs x ch tl Hr Hin|x Hb|r1 r2 x y z _ IH1 _ IH2
                 |greedy cs x|greedy cs x ch tl y Hr Hin _ IH|n r x y _ IH].
  - exists []. apply reads_nil.
  - exists [ch]. now apply reads_advance.
  - exists []. apply reads_nil.
  - destruct IH1 as (w1 & H1), IH2 as (w2 & H2).
    exists (w1 ++ w2). eapply reads_trans; eauto.
  - exists []. apply reads_nil.
  - destruct IH as (w & H). exists ([ch] ++ w).
    eapply reads_trans; [apply reads_advance|]; eauto.
  - destruct IH as (w & H). exists w. now apply reads_set_cap.
Qed.

(** *** The scan over the start positions *)

Lemma search_unfold r pv p s :
  search r pv p s
  = match match_at r pv p s with
    | Some y => Some (p, y)
    | None =>
        match s with
        | ch :: tl => search r (Some ch) (p + 1) tl
        | [] => None
        end
    end.
Proof. destruct s; reflexivity. Qed.

(** A result of the scan is a match at some split of the text, and no
    earlier split has a match. *)
Lemma search_sound r s :
  forall pv p start y,
    search r pv p s = Some (start, y) ->
    exists pre post,
      s = pre ++ post
      /\ start = p + Z.of_nat (length pre)
      /\ match_at r (last_or pv pre) start post = Some y
      /\ forall pre' post',
           s = pre' ++ post' -> (length pre' < length pre)%nat ->
           match_at r (last_or pv pre') (p + Z.of_nat (length pre')) post'
           = None.
Proof.
  induction s as [|ch tl IH]; intros pv p start y H;
    rewrite search_unfold in H.
  - destruct (match_at r pv p []) eqn:E; [|discriminate].
    injection H as <- <-. exists [], []. simpl. rewrite Z.add_0_r.
    repeat split; auto. intros ? ? _ Hlt. inversion Hlt.
  - destruct (match_at r pv p (ch :: tl)) eqn:E.
    + injection H as <- <-. exists [], (ch :: tl). simpl.
      rewrite Z.add_0_r. repeat split; auto. intros ? ? _ Hlt. inversion Hlt.
    + apply IH in H. destruct H as (pre & post & -> & -> & Hm & Hleft).
      exists (ch :: pre), post. simpl length. simpl last_or.
      split; [reflexivity|]. split; [lia|]. split; [exact Hm|].
      intros pre' post' Heq Hlt. destruct pre' as [|c' pre'].
      * simpl in Heq. subst post'. simpl. now rewrite Z.add_0_r.
      * simpl in Heq. injection Heq as <- Heq. simpl in Hlt.
        specialize (Hleft pre' post' Heq ltac:(lia)).
        simpl last_or. rewrite <- Hleft. f_equal. simpl length. lia.
Qed.

Lemma search_complete r s :
  forall pv p pre post,
    s = pre ++ post ->
    match_at r (last_or pv pre) (p + Z.of_nat (length pre)) post <> None ->
    search r pv p s <> None.
Proof.
  induction s as [|ch tl IH]; intros pv p pre post Heq Hm;
    rewrite search_unfold.
  - destruct pre; [|discriminate]. simpl in Heq. subst post. simpl in Hm.
    rewrite Z.add_0_r in Hm.
    destruct (match_at r pv p []); [discriminate | contradiction].
  - destruct (match_at r pv p (ch :: tl)) eqn:E; [discriminate|].
    destruct pre as [|c' pre].
    + simpl in Heq. subst post. simpl in Hm. rewrite Z.add_0_r in Hm.
      congruence.
    + simpl in Heq. injection Heq as <- Heq.
      apply (IH (Some ch) (p + 1) pre post Heq).
      simpl in Hm.
      replace (p + 1 + Z.of_nat (length pre))
        with (p + Z.pos (Pos.of_succ_nat (length pre))) by lia.
      exact Hm.
Qed.

(** [r.test(s)] holds exactly when the pattern has a match somewhere in
    [s]. *)
Theorem test_iff (r : regex) (s : jsstring) :
  test r s = true <->
  exists pre post y, s = pre ++ post /\ Steps r (state_at pre post) y.
Proof.
  unfold test. split.
  - destruct (search r None 0 s) as [[start y]|] eqn:E; [|discriminate].
    intros _. apply search_sound in E.
    destruct E as (pre & post & -> & -> & Hm & _).
    apply matcher_sound in Hm. destruct Hm as (y' & Hy & _).
    exists pre, post, y'. split; [reflexivity|]. exact Hy.
  - intros (pre & post & y & -> & Hy).
    assert (Hs : search r None 0 (pre ++ post) <> None).
    { apply (search_complete r _ None 0 pre post eq_refl).
      unfold match_at. eapply matcher_complete; [exact Hy | discriminate]. }
    destruct (search r None 0 (pre ++ post)) as [[? ?]|];
      [reflexivity | contradiction].
Qed.

(** *** Literals *)

Lemma Steps_Lits_inv w :
  forall x y,
    Steps (Lits w) x y ->
    exists w', same_ignoring_case w w' /\ reads x w' y /\ caps y = caps x.
Proof.
  induction w as [|c w IH]; intros x y H; simpl in H.
  - inversion H; subst. exists [].
    split; [constructor | split; [apply reads_nil | reflexivity]].
  - inversion H as [| | |r1 r2 x0 y0 z0 H1 H2| | |]; subst.
    inversion H1 as [|cs x0 ch tl Hr Hin| | | | |]; subst.
    apply IH in H2. destruct H2 as (w' & Hw & Hrd & Hcaps).
    exists (ch :: w'). split; [|split].
    + constructor; [|exact Hw]. simpl in Hin. now apply Z.eqb_eq.
    + apply (reads_trans x [ch] (advance x ch tl) w' y);
        [now apply reads_advance | exact Hrd].
    + exact Hcaps.
Qed.

Lemma Steps_Lits_intro w :
  forall w' x y,
    same_ignoring_case w w' -> reads x w' y -> caps y = caps x ->
    Steps (Lits w) x y.
Proof.
  induction w as [|c w IH]; intros w' x y Hw Hrd Hcaps;
    inversion Hw as [|p c' w0 w0' Hc Hw']; subst; simpl.
  - destruct Hrd as (Hr & Hp & Hn). simpl in *. rewrite Z.add_0_r in Hn.
    destruct x, y; simpl in *; subst. constructor.
  - destruct Hrd as (Hr & Hp & Hn). simpl in Hr.
    apply Steps_Seq with (y := advance x c' (w0' ++ rest y)).
    + constructor; [exact Hr|]. simpl. now apply Z.eqb_eq.
    + apply (IH w0'); [exact Hw'| |exact Hcaps].
      unfold reads. simpl. repeat split; auto.
      rewrite Hn. simpl length. lia.
Qed.

(** *** Matches as texts *)

Lemma mstate_ext (x y : mstate) :
  prev x = prev y -> pos x = pos y -> rest x = rest y -> caps x = caps y ->
  x = y.
Proof. destruct x, y. simpl. now intros -> -> -> ->. Qed.

Lemma Steps_Matches r x y :
  Steps r x y ->
  exists w cp,
    reads x w y /\ caps y = cp ++ caps x
    /\ Matches r (prev x) (pos x) w (rest y) cp.
Proof.
  induction 1 as [x|cs x ch tl Hr Hin|x Hb|r1 r2 x y z _ IH1 _ IH2
                 |greedy cs x|greedy cs x ch tl y Hr Hin _ IH|n r x y _ IH].
  - exists [], []. simpl. auto using reads_nil.
  - exists [ch], []. simpl. split; [now apply reads_advance|]. eauto.
  - exists [], []. simpl. auto using reads_nil.
  - destruct IH1 as (w1 & cp1 & R1 & C1 & M1).
    destruct IH2 as (w2 & cp2 & R2 & C2 & M2).
    exists (w1 ++ w2), (cp2 ++ cp1).
    split; [eapply reads_trans; eauto|].
    split; [now rewrite C2, C1, app_assoc|].
    simpl. exists w1, w2, cp1, cp2.
    destruct R1 as (_ & P1 & N1), R2 as (S2 & _ & _).
    rewrite <- S2, <- P1, <- N1. auto.
  - exists [], []. simpl. auto using reads_nil.
  - destruct IH as (w & cp & R & C & F & ->).
    exists (ch :: w), []. split.
    { apply (reads_trans x [ch] (advance x ch tl) w y);
        [now apply reads_advance | exact R]. }
    split; [exact C|]. simpl. auto.
  - destruct IH as (w & cp & R & C & M).
    exists w, ((n, (pos x, pos y)) :: cp).
    split; [exact R|]. split; [simpl; now rewrite C|].
    simpl. exists cp. destruct R as (_ & _ & N). rewrite <- N. auto.
Qed.

Lemma Matches_Steps r :
  forall x y w cp,
    reads x w y -> caps y = cp ++ caps x ->
    Matches r (prev x) (pos x) w (rest y) cp ->
    Steps r x y.
Proof.
  induction r as [|cs| |r1 IH1 r2 IH2|greedy cs|n r IH];
    intros x y w cp (R & P & N) C M; simpl in M.
  - destruct M as (-> & ->). simpl in *. rewrite Z.add_0_r in N.
    rewrite (mstate_ext y x); auto.
  - destruct M as (ch & -> & Hin & ->). simpl in *.
    rewrite (mstate_ext y (advance x ch (rest y))); auto.
  - destruct M as (-> & Hb & ->). simpl in *. rewrite Z.add_0_r in N.
    rewrite (mstate_ext y x); auto.
    constructor. unfold at_boundary. now rewrite R.
  - destruct M as (w1 & w2 & cp1 & cp2 & -> & -> & M1 & M2).
    set (ymid := MState (last_or (prev x) w1)
                        (pos x + Z.of_nat (length w1))
                        (w2 ++ rest y) (cp1 ++ caps x)).
    apply Steps_Seq with (y := ymid).
    + apply (IH1 x ymid w1 cp1); auto.
      unfold reads, ymid. simpl. now rewrite R, <- app_assoc.
    + apply (IH2 ymid y w2 cp2); auto.
      * unfold reads, ymid. simpl.
        rewrite P, N, last_or_app, length_app. repeat split. lia.
      * unfold ymid. simpl. now rewrite C, app_assoc.
  - destruct M as (F & ->). simpl in C.
    revert x R P N C. induction F as [|ch w Hin F IHF]; intros x R P N C.
    + simpl in *. rewrite Z.add_0_r in N.
      rewrite (mstate_ext y x); auto.
    + simpl in R.
      apply Steps_Star_more with (ch := ch) (tl := w ++ rest y); auto.
      apply IHF; simpl; auto.
      rewrite N. simpl length. lia.
  - destruct M as (cp' & -> & M).
    set (y' := MState (prev y) (pos y) (rest y) (cp' ++ caps x)).
    assert (Hy : y = set_cap n (pos x) (pos y') y').
    { apply mstate_ext; simpl; auto. now rewrite C, N. }
    rewrite Hy. constructor.
    apply (IH x y' w cp'); auto.
    unfold reads, y'. simpl. auto.
Qed.

(** The matches found by one attempt and by [test] are matches as
    texts. *)
Lemma match_at_Matches r pv p s y :
  match_at r pv p s = Some y ->
  exists w,
    s = w ++ rest y /\ pos y = p + Z.of_nat (length w)
    /\ prev y = last_or pv w
    /\ Matches r pv p w (rest y) (caps y).
Proof.
  unfold match_at. intros H. apply matcher_sound in H.
  destruct H as (y' & Hy & E). injection E as ->.
  apply Steps_Matches in Hy.
  destruct Hy as (w & cp & (R & P & N) & C & M). simpl in *.
  exists w. rewrite C, app_nil_r. auto.
Qed.

Lemma Matches_match_at r pv p w tl cp :
  Matches r pv p w tl cp -> match_at r pv p (w ++ tl) <> None.
Proof.
  intros M. unfold match_at.
  apply (matcher_complete r _
           (MState (last_or pv w) (p + Z.of_nat (length w)) tl cp));
    [|discriminate].
  apply (Matches_Steps r _ _ w cp); simpl; auto.
  - unfold reads. simpl. auto.
  - now rewrite app_nil_r.
Qed.

Theorem test_Matches (r : regex) (s : jsstring) :
  test r s = true <->
  exists pre w post cp,
    s = pre ++ w ++ post
    /\ Matches r (last_or None pre) (Z.of_nat (length pre)) w post cp.
Proof.
  unfold test. split.
  - destruct (search r None 0 s) as [[start y]|] eqn:E; [|discriminate].
    intros _. apply search_sound in E.
    destruct E as (pre & post & -> & -> & Hm & _).
    apply match_at_Matches in Hm. destruct Hm as (w & -> & _ & _ & M).
    exists pre, w, (rest y), (caps y). auto.
  - intros (pre & w & post & cp & -> & M).
    apply Matches_match_at in M.
    pose proof (search_complete r _ None 0 pre (w ++ post) eq_refl M) as Hs.
    destruct (search r None 0 (pre ++ w ++ post)) as [[? ?]|];
      [reflexivity | contradiction].
Qed.

(** The result of [s.match(r)]: a match as a text at its index, with the
    captures taken from [s], and no match at a smaller index. *)
Theorem exec_Matches (r : regex) (s : jsstring) (m : match_result) :
  exec r s = Some m ->
  exists pre w post cp,
    s = pre ++ w ++ post
    /\ Matches r (last_or None pre) (Z.of_nat (length pre)) w post cp
    /\ index m = Z.of_nat (length pre)
    /\ end_index m = Z.of_nat (length pre) + Z.of_nat (length w)
    /\ groups m = capture s cp
    /\ forall pre' post',
         s = pre' ++ post' -> (length pre' < length pre)%nat ->
         match_at r (last_or None pre') (Z.of_nat (length pre')) post'
         = None.
Proof.
  unfold exec. destruct (search r None 0 s) as [[start y]|] eqn:E;
    [|discriminate].
  intros H. injection H as <-. apply search_sound in E.
  destruct E as (pre & post & -> & -> & Hm & Hleft).
  apply match_at_Matches in Hm. destruct Hm as (w & -> & N & _ & M).
  exists pre, w, (rest y), (caps y). simpl. auto 7.
Qed.

Lemma exec_None (r : regex) (s : jsstring) :
  exec r s = None <-> test r s = false.
Proof.
  unfold exec, test. destruct (search r None 0 s) as [[? ?]|];
    split; intros; congruence.
Qed.

(** *** The global scan *)

Lemma search_rest r s pv p start y :
  search r pv p s = Some (start, y) ->
  (length (rest y) <= length s)%nat
  /\ (pos y <> start -> (length (rest y) < length s)%nat).
Proof.
  intros H. apply search_sound in H.
  destruct H as (pre & post & -> & -> & Hm & _).
  apply match_at_Matches in Hm. destruct Hm as (w & -> & N & _ & _).
  rewrite !length_app. split; [lia|].
  intros Hne. destruct w; [simpl in N; lia | simpl; lia].
Qed.

(** The bound on the number of matches is never reached: any larger bound
    gives the same matches. *)
Lemma matchAll_from_fuel r input :
  forall f1 f2 s pv p,
    (length s < f1)%nat -> (length s < f2)%nat ->
    matchAll_from f1 r input pv p s = matchAll_from f2 r input pv p s.
Proof.
  induction f1 as [|f1 IH]; intros [|f2] s pv p H1 H2; try lia.
  cbn [matchAll_from].
  destruct (search r pv p s) as [[start y]|] eqn:E; [|reflexivity].
  apply search_rest in E. destruct E as (Hle & Hlt).
  f_equal. destruct (Z.eqb_spec (pos y) start) as [He|Hne].
  - destruct (rest y) as [|ch tl] eqn:Er; [reflexivity|].
    simpl in Hle. apply IH; lia.
  - specialize (Hlt Hne). apply IH; lia.
Qed.

Theorem matchAll_fuel (r : regex) (input : jsstring) (fuel : nat) :
  (length input < fuel)%nat ->
  matchAll_from fuel r input None 0 input = matchAll r input.
Proof.
  intros H. unfold matchAll. apply matchAll_from_fuel; lia.
Qed.

(** Every result of the global scan is a match as a text, somewhere in
    the input, with its captures taken from the input. *)
Lemma matchAll_from_sound r input :
  forall fuel done s pv p m,
    input = done ++ s -> pv = last_or None done ->
    p = Z.of_nat (length done) ->
    In m (matchAll_from fuel r input pv p s) ->
    exists pre w post cp,
      input = pre ++ w ++ post
      /\ Matches r (last_or None pre) (Z.of_nat (length pre)) w post cp
      /\ index m = Z.of_nat (length pre)
      /\ groups m = capture input cp.
Proof.
  induction fuel as [|fuel IH]; intros done s pv p m Hin Hpv Hp Hm;
    cbn [matchAll_from] in Hm; [contradiction|].
  destruct (search r pv p s) as [[start y]|] eqn:E; [|contradiction].
  apply search_sound in E.
  destruct E as (pre & post & -> & -> & Hat & _).
  apply match_at_Matches in Hat. destruct Hat as (w & -> & N & P & M).
  assert (Hpv' : last_or pv pre = last_or None (done ++ pre))
    by (now rewrite last_or_app, Hpv).
  assert (Hp' : p + Z.of_nat (length pre) = Z.of_nat (length (done ++ pre)))
    by (rewrite length_app; lia).
  destruct Hm as [<-|Hm].
  - exists (done ++ pre), w, (rest y), (caps y).
    split; [now rewrite Hin, <- !app_assoc|].
    rewrite <- Hpv', <- Hp'. cbn [result_of index groups]. auto.
  - assert (Hin' : input = (done ++ pre ++ w) ++ rest y)
      by (now rewrite Hin, <- !app_assoc).
    assert (Hprev : prev y = last_or None (done ++ pre ++ w))
      by (now rewrite P, Hpv', !last_or_app).
    assert (Hpos : pos y = Z.of_nat (length (done ++ pre ++ w)))
      by (rewrite N, Hp', !length_app; lia).
    destruct (pos y =? p + Z.of_nat (length pre)).
    + destruct (rest y) as [|ch tl] eqn:Er; [contradiction|].
      apply (IH ((done ++ pre ++ w) ++ [ch]) tl (Some ch) (pos y + 1) m);
        auto.
      * now rewrite Hin', <- !app_assoc.
      * now rewrite last_or_snoc.
      * rewrite Hpos, (length_app _ [ch]). simpl length. lia.
    + apply (IH (done ++ pre ++ w) (rest y) (prev y) (pos y) m); auto.
Qed.

Theorem matchAll_sound (r : regex) (input : jsstring) (m : match_result) :
  In m (matchAll r input) ->
  exists pre w post cp,
    input = pre ++ w ++ post
    /\ Matches r (last_or None pre) (Z.of_nat (length pre)) w post cp
    /\ index m = Z.of_nat (length pre)
    /\ groups m = capture input cp.
Proof.
  unfold matchAll. apply (matchAll_from_sound r input _ []); reflexivity.
Qed.

End MatcherFacts.

Import MatcherFacts.

(* ================================================================== *)
(** ** Tokens in an attribute text *)

Lemma token_test (tok s : jsstring) :
  test (Bound >> Lits tok >> Bound) s = true <-> contains_token tok s.
Proof.
  rewrite test_iff. unfold contains_token. split.
  - intros (pre & post & y & -> & H).
    inversion H as [| | |r1 r2 x0 y0 z0 H1 H2| | |]; subst.
    inversion H1 as [| |x0 Hb1| | | |]; subst.
    inversion H2 as [| | |r1 r2 x0 y0 z0 H3 H4| | |]; subst.
    inversion H4 as [| |x0 Hb2| | | |]; subst.
    apply Steps_Lits_inv in H3. destruct H3 as (mid & Hw & (Hr & Hp & _) & _).
    simpl in Hr, Hp. exists pre, mid, (rest y).
    split; [now rewrite Hr|]. split; [exact Hw|].
    unfold at_boundary in Hb1, Hb2. simpl in Hb1. rewrite Hr in Hb1.
    split; [exact Hb1|].
    unfold boundary_between. now rewrite last_or_app, <- Hp.
  - intros (pre & mid & post & -> & Hw & Hb1 & Hb2).
    set (y := MState (last_or None (pre ++ mid))
                     (Z.of_nat (length pre) + Z.of_nat (length mid)) post []).
    exists pre, (mid ++ post), y. split; [reflexivity|].
    apply Steps_Seq with (y := state_at pre (mid ++ post)).
    { constructor. exact Hb1. }
    apply Steps_Seq with (y := y).
    { apply (Steps_Lits_intro tok mid); [exact Hw| |reflexivity].
      unfold reads, y. simpl. now rewrite last_or_app. }
    constructor. exact Hb2.
Qed.

(* ================================================================== *)
(** ** Quoted attributes in an attribute text *)

Ltac char_cases :=
  unfold not_gt, space, any_char, quote, not_quote, is_quote,
    c_eq, c_gt, c_dquote, c_squote;
  cbn [char_in atom_mem existsb xorb negb orb andb];
  unfold canonicalize;
  repeat match goal with
  | |- context [?a <=? ?b] => destruct (Z.leb_spec a b)
  | |- context [is_space ?c] => destruct (is_space c)
  end;
  cbn [existsb xorb negb orb andb];
  repeat match goal with
  | |- context [?a =? ?b] => destruct (Z.eqb_spec a b)
  end;
  cbn [existsb xorb negb orb andb].

Lemma char_in_eq ch : char_in (One c_eq) ch = true <-> ch = c_eq.
Proof. char_cases; split; intros; try discriminate; try lia; auto. Qed.

Lemma char_in_gt ch : char_in (One c_gt) ch = true <-> ch = c_gt.
Proof. char_cases; split; intros; try discriminate; try lia; auto. Qed.

Lemma char_in_not_gt ch : char_in not_gt ch = true <-> ch <> c_gt.
Proof. char_cases; split; intros; try discriminate; try lia; auto. Qed.

Lemma char_in_quote ch : char_in quote ch = true <-> is_quote ch.
Proof.
  char_cases; split; intros; try discriminate; try lia; auto;
    try (exfalso; lia).
Qed.

Lemma char_in_not_quote ch : char_in not_quote ch = true <-> ~ is_quote ch.
Proof.
  char_cases; split; intros; try discriminate; try lia; auto;
    try (exfalso; lia); try (exfalso; tauto).
Qed.

Lemma char_in_space ch : char_in space ch = true <-> is_space ch = true.
Proof. char_cases; tauto. Qed.

Lemma char_in_digit ch : char_in digit ch = true <-> is_digit ch = true.
Proof.
  unfold char_in, digit, atom_mem. cbn [existsb xorb].
  now rewrite orb_false_r.
Qed.

Lemma char_in_any_char ch : char_in any_char ch = true.
Proof. char_cases; reflexivity. Qed.

Lemma Matches_Lits tok :
  forall pv p w tl cp,
    Matches (Lits tok) pv p w tl cp <-> same_ignoring_case tok w /\ cp = [].
Proof.
  induction tok as [|c tok IH]; intros pv p w tl cp; cbn [Lits Matches].
  - split.
    + intros (-> & ->). split; [constructor | reflexivity].
    + intros (H & ->). inversion H. auto.
  - split.
    + intros (w1 & w2 & cp1 & cp2 & -> & -> & (ch & -> & Hin & ->) & M).
      apply IH in M. destruct M as (Hw & ->).
      split; [|reflexivity]. constructor; [|exact Hw].
      simpl in Hin. now apply Z.eqb_eq.
    + intros (H & ->). inversion H as [|c0 ch tok0 w' Hc Hw]; subst.
      exists [ch], w', [], []. repeat split.
      * exists ch. repeat split. simpl. now apply Z.eqb_eq.
      * apply IH. auto.
Qed.

Lemma Matches_Plus greedy cs pv p w tl cp :
  Matches (Plus greedy cs) pv p w tl cp
  <-> w <> [] /\ Forall (fun ch => char_in cs ch = true) w /\ cp = [].
Proof.
  unfold Plus. cbn [Matches]. split.
  - intros (w1 & w2 & cp1 & cp2 & -> & -> & (ch & -> & Hin & ->) & F & ->).
    repeat split; [discriminate | now constructor].
  - intros (Hne & F & ->). destruct F as [|ch w Hin F]; [contradiction|].
    exists [ch], w, [], []. repeat split; auto. exists ch. auto.
Qed.

Lemma all_space_char_in ws :
  Forall (fun ch => char_in space ch = true) ws <-> all_space ws.
Proof.
  unfold all_space. split; intros H; induction H; constructor; auto;
    now apply char_in_space.
Qed.

Lemma Matches_eq_quote pv p w tl cp :
  Matches eq_quote pv p w tl cp
  <-> exists ws1 ws2 q,
        w = ws1 ++ [c_eq] ++ ws2 ++ [q]
        /\ all_space ws1 /\ all_space ws2 /\ is_quote q /\ cp = [].
Proof.
  unfold eq_quote. cbn [Matches]. split.
  - intros (ws1 & w2 & cp1 & cp2 & -> & -> & (F1 & ->)
            & (w3 & w4 & cp3 & cp4 & -> & -> & (e & -> & He & ->)
            & (ws2 & w6 & cp5 & cp6 & -> & -> & (F2 & ->)
            & (q & -> & Hq & ->)))).
    apply char_in_eq in He. subst e. apply char_in_quote in Hq.
    apply all_space_char_in in F1, F2.
    exists ws1, ws2, q. auto.
  - intros (ws1 & ws2 & q & -> & F1 & F2 & Hq & ->).
    apply all_space_char_in in F1, F2. apply char_in_quote in Hq.
    exists ws1, ([c_eq] ++ ws2 ++ [q]), [], []. repeat split; auto.
    exists [c_eq], (ws2 ++ [q]), [], []. repeat split.
    + exists c_eq. repeat split.
    + exists ws2, [q], [], []. repeat split; auto. exists q. auto.
Qed.

Lemma hd_error_app_ne (a b : jsstring) :
  a <> [] -> hd_error (a ++ b) = hd_error a.
Proof. destruct a; [contradiction | reflexivity]. Qed.

Lemma same_ignoring_case_ne (a b : jsstring) :
  same_ignoring_case a b -> a <> [] -> b <> [].
Proof. intros H. inversion H; [contradiction | discriminate]. Qed.

Lemma Matches_attr_pattern name V pv p w tl cp :
  name <> [] ->
  Matches (attr_pattern name V) pv p w tl cp
  <-> exists nm ws1 ws2 q1 v q2,
        w = (nm ++ ws1 ++ [c_eq] ++ ws2 ++ [q1]) ++ v ++ [q2]
        /\ same_ignoring_case name nm
        /\ xorb (is_word_opt pv) (is_word_opt (hd_error nm)) = true
        /\ all_space ws1 /\ all_space ws2 /\ is_quote q1 /\ is_quote q2
        /\ Matches V (Some q1)
             (p + Z.of_nat (length (nm ++ ws1 ++ [c_eq] ++ ws2 ++ [q1])))
             v (q2 :: tl) cp.
Proof.
  intros Hname. unfold attr_pattern. cbn [Matches]. split.
  - intros (w1 & w2 & cp1 & cp2 & -> & -> & (-> & Hb & ->)
            & (nm & w4 & cp3 & cp4 & -> & -> & ML
            & (we & w6 & cp5 & cp6 & -> & -> & ME
            & (v & w8 & cp7 & cp8 & -> & -> & MV
            & (q2 & -> & Hq2 & ->))))).
    apply Matches_Lits in ML. destruct ML as (Hnm & ->).
    apply Matches_eq_quote in ME.
    destruct ME as (ws1 & ws2 & q1 & -> & F1 & F2 & Hq1 & ->).
    apply char_in_quote in Hq2.
    pose proof (same_ignoring_case_ne _ _ Hnm Hname) as Hne.
    exists nm, ws1, ws2, q1, v, q2.
    split; [cbn [app]; now rewrite <- !app_assoc|].
    split; [exact Hnm|].
    split.
    { cbn [app] in Hb. rewrite <- !app_assoc in Hb.
      now rewrite hd_error_app_ne in Hb by assumption. }
    do 4 (split; [assumption|]).
    rewrite !app_nil_r. cbn [app].
    cbn [last_or fold_left length] in MV.
    replace (last_or (last_or pv nm) (ws1 ++ [c_eq] ++ ws2 ++ [q1]))
      with (Some q1) in MV
      by (now rewrite !app_assoc, last_or_snoc).
    replace (p + Z.of_nat 0 + Z.of_nat (length nm)
             + Z.of_nat (length (ws1 ++ [c_eq] ++ ws2 ++ [q1])))
      with (p + Z.of_nat (length (nm ++ ws1 ++ [c_eq] ++ ws2 ++ [q1])))
      in MV
      by (rewrite (length_app nm); lia).
    exact MV.
  - intros (nm & ws1 & ws2 & q1 & v & q2 & -> & Hnm & Hb & F1 & F2
            & Hq1 & Hq2 & MV).
    pose proof (same_ignoring_case_ne _ _ Hnm Hname) as Hne.
    exists [], ((nm ++ ws1 ++ [c_eq] ++ ws2 ++ [q1]) ++ v ++ [q2]), [], cp.
    split; [reflexivity|]. split; [now rewrite app_nil_r|].
    split.
    { repeat split. rewrite <- !app_assoc.
      now rewrite hd_error_app_ne by assumption. }
    exists nm, ((ws1 ++ [c_eq] ++ ws2 ++ [q1]) ++ v ++ [q2]), [], cp.
    split; [now rewrite <- !app_assoc|]. split; [now rewrite app_nil_r|].
    split; [apply Matches_Lits; auto|].
    exists (ws1 ++ [c_eq] ++ ws2 ++ [q1]), (v ++ [q2]), [], cp.
    split; [reflexivity|]. split; [now rewrite app_nil_r|].
    split.
    { apply Matches_eq_quote. exists ws1, ws2, q1. auto. }
    exists v, [q2], cp, [].
    split; [reflexivity|]. split; [reflexivity|].
    split.
    { cbn [last_or fold_left length].
      replace (last_or (last_or pv nm) (ws1 ++ [c_eq] ++ ws2 ++ [q1]))
        with (Some q1)
        by (now rewrite !app_assoc, last_or_snoc).
      replace (p + Z.of_nat 0 + Z.of_nat (length nm)
               + Z.of_nat (length (ws1 ++ [c_eq] ++ ws2 ++ [q1])))
        with (p + Z.of_nat (length (nm ++ ws1 ++ [c_eq] ++ ws2 ++ [q1])))
        by (rewrite (length_app nm); lia).
      exact MV. }
    exists q2. repeat split. now apply char_in_quote.
Qed.

(** [test] on an attribute pattern whose value pattern accepts exactly
    the texts satisfying [P]. *)
Lemma test_attr_pattern (name : jsstring) (V : regex)
    (P : jsstring -> Prop) (attrs : jsstring) :
  name <> [] ->
  (forall pv p v tl cp, Matches V pv p v tl cp -> P v) ->
  (forall pv p v tl, P v -> exists cp, Matches V pv p v tl cp) ->
  test (attr_pattern name V) attrs = true
  <-> exists value, quoted_attribute name attrs value /\ P value.
Proof.
  intros Hname HV1 HV2. rewrite test_Matches. split.
  - intros (pre & w & post & cp & -> & M).
    apply Matches_attr_pattern in M; [|exact Hname].
    destruct M as (nm & ws1 & ws2 & q1 & v & q2 & -> & Hnm & Hb & F1 & F2
                   & Hq1 & Hq2 & MV).
    exists v. split; [|eapply HV1; exact MV].
    exists pre, nm, ws1, ws2, q1, q2, post.
    split; [now rewrite <- !app_assoc|]. auto 7.
  - intros (value & (pre & nm & ws1 & ws2 & q1 & q2 & post & -> & Hnm & Hb
                     & F1 & F2 & Hq1 & Hq2) & HP).
    destruct (HV2 (Some q1)
                (Z.of_nat (length pre)
                 + Z.of_nat (length (nm ++ ws1 ++ [c_eq] ++ ws2 ++ [q1])))
                value (q2 :: post) HP) as (cp & MV).
    exists pre, ((nm ++ ws1 ++ [c_eq] ++ ws2 ++ [q1]) ++ value ++ [q2]),
      post, cp.
    split; [now rewrite <- !app_assoc|].
    apply Matches_attr_pattern; [exact Hname|].
    exists nm, ws1, ws2, q1, value, q2. auto 9.
Qed.

Lemma substring_mid (l1 v l2 : jsstring) :
  substring (l1 ++ v ++ l2) (Z.of_nat (length l1))
            (Z.of_nat (length l1) + Z.of_nat (length v)) = v.
Proof.
  unfold substring.
  replace (Z.of_nat (length l1) + Z.of_nat (length v) - Z.of_nat (length l1))
    with (Z.of_nat (length v)) by lia.
  rewrite !Nat2Z.id, skipn_app, skipn_all, Nat.sub_diag. cbn [skipn app].
  now rewrite firstn_app, firstn_all, Nat.sub_diag, firstn_O, app_nil_r.
Qed.

(** [match] on an attribute pattern whose value is a captured, non-empty
    run of one class: group 1 is the value of a quoted attribute. *)
Lemma exec_attr_pattern (name : jsstring) (cs : charset)
    (attrs : jsstring) (m : match_result) :
  name <> [] ->
  exec (attr_pattern name (Group 1 (Plus true cs))) attrs = Some m ->
  exists value,
    quoted_attribute name attrs value
    /\ value <> [] /\ Forall (fun ch => char_in cs ch = true) value
    /\ groups m 1%nat = Some value.
Proof.
  intros Hname H. apply exec_Matches in H.
  destruct H as (pre & w & post & cp & -> & M & _ & _ & Hg & _).
  apply Matches_attr_pattern in M; [|exact Hname].
  destruct M as (nm & ws1 & ws2 & q1 & v & q2 & -> & Hnm & Hb & F1 & F2
                 & Hq1 & Hq2 & MV).
  cbn [Matches] in MV. destruct MV as (cp' & -> & MV).
  apply Matches_Plus in MV. destruct MV as (Hne & F & ->).
  exists v. split; [|split; [exact Hne | split; [exact F|]]].
  - exists pre, nm, ws1, ws2, q1, q2, post.
    split; [now rewrite <- !app_assoc|]. auto 7.
  - rewrite Hg. unfold capture. cbn [lookup_cap Nat.eqb].
    f_equal.
    set (prefix := nm ++ ws1 ++ [c_eq] ++ ws2 ++ [q1]).
    replace (pre ++ ((prefix ++ v ++ [q2]) ++ post))
      with ((pre ++ prefix) ++ v ++ ([q2] ++ post))
      by (now rewrite <- !app_assoc).
    replace (Z.of_nat (length pre) + Z.of_nat (length prefix))
      with (Z.of_nat (length (pre ++ prefix)))
      by (rewrite length_app; lia).
    apply substring_mid.
Qed.

(** *** The flags and values derived from an attribute text *)

Lemma hasDefer_iff (attrs : jsstring) :
  hasDefer attrs = true <-> contains_token (lit "defer") attrs.
Proof. apply token_test. Qed.

Lemma hasAsync_iff (attrs : jsstring) :
  hasAsync attrs = true <-> contains_token (lit "async") attrs.
Proof. apply token_test. Qed.

Lemma Forall_char_in (cs : charset) (P : code_unit -> Prop) (v : jsstring) :
  (forall c, char_in cs c = true <-> P c) ->
  Forall (fun c => char_in cs c = true) v <-> Forall P v.
Proof.
  intros H. split; intros F; induction F; constructor; auto; now apply H.
Qed.

Lemma hasSrc_iff (attrs : jsstring) :
  hasSrc attrs = true
  <-> exists value,
        quoted_attribute (lit "src") attrs value /\ unquoted_text value.
Proof.
  unfold hasSrc.
  change re_has_src with (attr_pattern (lit "src") (Plus true not_quote)).
  apply test_attr_pattern; [discriminate| |].
  - intros pv p v tl cp M. apply Matches_Plus in M.
    destruct M as (Hne & F & _). split; [exact Hne|].
    now apply (Forall_char_in not_quote _ v char_in_not_quote).
  - intros pv p v tl (Hne & F). exists []. apply Matches_Plus.
    repeat split; [exact Hne|].
    now apply (Forall_char_in not_quote _ v char_in_not_quote).
Qed.

Lemma hasLazy_iff (attrs : jsstring) :
  hasLazy attrs = true
  <-> exists value,
        quoted_attribute (lit "loading") attrs value
        /\ same_ignoring_case (lit "lazy") value.
Proof.
  unfold hasLazy.
  change re_lazy with (attr_pattern (lit "loading") (Lits (lit "lazy"))).
  apply test_attr_pattern; [discriminate| |].
  - intros pv p v tl cp M. now apply Matches_Lits in M.
  - intros pv p v tl H. exists []. now apply Matches_Lits.
Qed.


Lemma dimension_None (name attrs : jsstring) :
  name <> [] ->
  match exec (attr_pattern name (Group 1 (Plus true digit))) attrs with
  | Some m => Some (parseInt (group1 m))
  | None => None
  end = None
  <-> ~ exists value,
          quoted_attribute name attrs value /\ decimal_digits value.
Proof.
  intros Hname.
  assert (Ht : test (attr_pattern name (Group 1 (Plus true digit))) attrs
               = true
               <-> exists value,
                     quoted_attribute name attrs value
                     /\ decimal_digits value).
  { apply test_attr_pattern; [exact Hname| |].
    - intros pv p v tl cp M. cbn [Matches] in M.
      destruct M as (cp' & _ & M). apply Matches_Plus in M.
      destruct M as (Hne & F & _). split; [exact Hne|].
      now apply (Forall_char_in digit _ v char_in_digit).
    - intros pv p v tl (Hne & F).
      exists [(1%nat, (p, p + Z.of_nat (length v)))]. cbn [Matches].
      exists []. split; [reflexivity|]. apply Matches_Plus.
      repeat split; [exact Hne|].
      now apply (Forall_char_in digit _ v char_in_digit). }
  rewrite <- Ht.
  destruct (exec (attr_pattern name (Group 1 (Plus true digit))) attrs)
    as [m|] eqn:E.
  - split; [discriminate|]. intros Hn. exfalso. apply Hn.
    destruct (test _ attrs) eqn:T; [reflexivity|].
    apply exec_None in T. congruence.
  - apply exec_None in E. rewrite E. split; [discriminate | reflexivity].
Qed.



Lemma widthVal_None (attrs : jsstring) :
  widthVal attrs = None
  <-> ~ exists value,
          quoted_attribute (lit "width") attrs value /\ decimal_digits value.
Proof. apply (dimension_None (lit "width")). discriminate. Qed.

Lemma heightVal_None (attrs : jsstring) :
  heightVal attrs = None
  <-> ~ exists value,
          quoted_attribute (lit "height") attrs value
          /\ decimal_digits value.
Proof. apply (dimension_None (lit "height")). discriminate. Qed.

(** The source value of an image: the lower-cased value of a quoted [src]
    attribute, or the empty string when there is none. *)
Lemma srcVal_spec (toLowerCase : jsstring -> jsstring) (attrs : jsstring) :
  (hasSrc attrs = false /\ srcVal toLowerCase attrs = [])
  \/ exists value,
       quoted_attribute (lit "src") attrs value /\ unquoted_text value
       /\ srcVal toLowerCase attrs = toLowerCase value.
Proof.
  unfold srcVal.
  change re_src
    with (attr_pattern (lit "src") (Group 1 (Plus true not_quote))).
  destruct (exec (attr_pattern (lit "src") (Group 1 (Plus true not_quote)))
                 attrs) as [m|] eqn:E.
  - right. apply exec_attr_pattern in E; [|discriminate].
    destruct E as (value & Hq & Hne & F & Hg).
    exists value. split; [exact Hq|]. split.
    + split; [exact Hne|].
      now apply (Forall_char_in not_quote _ value char_in_not_quote).
    + unfold group1. now rewrite Hg.
  - left. split; [|reflexivity].
    destruct (hasSrc attrs) eqn:Hs; [|reflexivity].
    apply hasSrc_iff in Hs. destruct Hs as (value & Hq & Hne & F).
    apply exec_None in E.
    assert (T : test (attr_pattern (lit "src")
                        (Group 1 (Plus true not_quote))) attrs = true).
    { apply (test_attr_pattern (lit "src") _ unquoted_text);
        [discriminate| | |].
      - intros pv p v tl cp M. cbn [Matches] in M.
        destruct M as (cp' & _ & M). apply Matches_Plus in M.
        destruct M as (Hne' & F' & _). split; [exact Hne'|].
        now apply (Forall_char_in not_quote _ v char_in_not_quote).
      - intros pv p v tl (Hne' & F').
        exists [(1%nat, (p, p + Z.of_nat (length v)))]. cbn [Matches].
        exists []. split; [reflexivity|]. apply Matches_Plus.
        repeat split; [exact Hne'|].
        now apply (Forall_char_in not_quote _ v char_in_not_quote).
      - exists value. split; [exact Hq | split; assumption]. }
    congruence.
Qed.

(* ================================================================== *)
(** ** The matched elements *)

Lemma or_empty_Some (s : jsstring) : or_empty (Some s) = s.
Proof. now destruct s. Qed.

Lemma canonicalize_word (p c : code_unit) :
  is_word_char p = true -> canonicalize p = canonicalize c ->
  is_word_char c = true.
Proof.
  unfold is_word_char, canonicalize. intros Hp Hc.
  repeat match goal with
  | H : context [?a <=? ?b] |- _ => destruct (Z.leb_spec a b)
  | H : context [?a =? ?b] |- _ => destruct (Z.eqb_spec a b)
  | |- context [?a <=? ?b] => destruct (Z.leb_spec a b)
  | |- context [?a =? ?b] => destruct (Z.eqb_spec a b)
  end; cbn [andb orb] in *; try reflexivity; try discriminate; lia.
Qed.

(** A text equal, up to case, to a literal that ends with a word
    character ends with a word character. *)
Lemma last_or_word (tok w : jsstring) (pv : option code_unit) :
  same_ignoring_case tok w ->
  is_word_opt (last_or None tok) = true ->
  is_word_opt (last_or pv w) = true.
Proof.
  intros H. revert pv.
  induction H as [|p c tok w Hc H IH]; intros pv Hw.
  - discriminate.
  - cbn [last_or fold_left] in *. fold (last_or (Some p) tok) in Hw.
    fold (last_or (Some c) w).
    destruct H as [|p' c' tok' w' Hc' H'].
    + cbn in *. eapply canonicalize_word; eauto.
    + apply IH. exact Hw.
Qed.

Lemma Matches_re_script pv p w tl cp :
  Matches re_script pv p w tl cp ->
  exists open attrs body close,
    w = open ++ attrs ++ [c_gt] ++ body ++ close
    /\ script_element open attrs body close
    /\ cp = [(2%nat, (p + Z.of_nat (length (open ++ attrs ++ [c_gt])),
                      p + Z.of_nat (length (open ++ attrs ++ [c_gt]))
                      + Z.of_nat (length body)));
             (1%nat, (p + Z.of_nat (length open),
                      p + Z.of_nat (length open)
                      + Z.of_nat (length attrs)))].
Proof.
  unfold re_script. cbn [Matches].
  intros (open & w2 & cp1 & cp2 & -> & -> & ML
          & (w3 & w4 & cp3 & cp4 & -> & -> & (-> & Hb & ->)
          & (attrs & w6 & cp5 & cp6 & -> & -> & (cp5' & -> & F & ->)
          & (w7 & w8 & cp7 & cp8 & -> & -> & (g & -> & Hg & ->)
          & (body & close & cp9 & cp10 & -> & -> & (cp9' & -> & _ & ->)
          & MC))))).
  apply Matches_Lits in ML. destruct ML as (Hopen & ->).
  apply Matches_Lits in MC. destruct MC as (Hclose & ->).
  apply char_in_gt in Hg. subst g.
  exists open, attrs, body, close.
  split; [reflexivity|]. split.
  - split; [exact Hopen|]. split.
    { now apply (Forall_char_in not_gt _ attrs char_in_not_gt). }
    split; [|exact Hclose].
    cbn [app] in Hb.
    rewrite (last_or_word (lit "<script") open pv Hopen eq_refl) in Hb.
    replace (hd_error ((attrs ++ c_gt :: body ++ close) ++ tl))
      with (hd_error (attrs ++ [c_gt])) in Hb
      by (now destruct attrs).
    now destruct (is_word_opt (hd_error (attrs ++ [c_gt]))).
  - cbn [app length]. rewrite !length_app. cbn [length].
    repeat match goal with
    | |- @eq Z _ _ => lia
    | |- _ => f_equal
    end.
Qed.

Lemma Matches_re_img pv p w tl cp :
  Matches re_img pv p w tl cp ->
  exists open attrs,
    w = open ++ attrs ++ [c_gt]
    /\ img_element open attrs
    /\ cp = [(1%nat, (p + Z.of_nat (length open),
                      p + Z.of_nat (length open)
                      + Z.of_nat (length attrs)))].
Proof.
  unfold re_img. cbn [Matches].
  intros (open & w2 & cp1 & cp2 & -> & -> & ML
          & (w3 & w4 & cp3 & cp4 & -> & -> & (-> & Hb & ->)
          & (attrs & w6 & cp5 & cp6 & -> & -> & (cp5' & -> & F & ->)
          & (g & -> & Hg & ->)))).
  apply Matches_Lits in ML. destruct ML as (Hopen & ->).
  apply char_in_gt in Hg. subst g.
  exists open, attrs.
  split; [reflexivity|]. split.
  - split; [exact Hopen|]. split.
    { now apply (Forall_char_in not_gt _ attrs char_in_not_gt). }
    cbn [app] in Hb.
    rewrite (last_or_word (lit "<img") open pv Hopen eq_refl) in Hb.
    replace (hd_error ((attrs ++ [c_gt]) ++ tl))
      with (hd_error (attrs ++ [c_gt])) in Hb
      by (now destruct attrs).
    now destruct (is_word_opt (hd_error (attrs ++ [c_gt]))).
  - cbn [app length].
    repeat match goal with
    | |- @eq Z _ _ => lia
    | |- _ => f_equal
    end.
Qed.

(** Every matched script is a script element of the page, and the loop
    reads its attribute text and its body. *)
Theorem scriptMatches_elements (html : jsstring) (m : match_result) :
  In m (scriptMatches html) ->
  exists pre open attrs body close post,
    html = pre ++ (open ++ attrs ++ [c_gt] ++ body ++ close) ++ post
    /\ script_element open attrs body close
    /\ script_attrs m = attrs
    /\ script_body m = body.
Proof.
  intros H. apply matchAll_sound in H.
  destruct H as (pre & w & post & cp & Hin & M & _ & Hg).
  apply Matches_re_script in M.
  destruct M as (open & attrs & body & close & -> & He & ->).
  exists pre, open, attrs, body, close, post.
  split; [exact Hin|]. split; [exact He|].
  unfold script_attrs, script_body. rewrite Hg. unfold capture.
  cbn [lookup_cap Nat.eqb]. rewrite !or_empty_Some. split.
  - replace html with ((pre ++ open) ++ attrs
                       ++ ([c_gt] ++ body ++ close ++ post))
      by (now rewrite Hin, <- !app_assoc).
    replace (Z.of_nat (length pre) + Z.of_nat (length open))
      with (Z.of_nat (length (pre ++ open)))
      by (rewrite length_app; lia).
    apply substring_mid.
  - replace html with ((pre ++ open ++ attrs ++ [c_gt]) ++ body
                       ++ (close ++ post))
      by (now rewrite Hin, <- !app_assoc).
    replace (Z.of_nat (length pre)
             + Z.of_nat (length (open ++ attrs ++ [c_gt])))
      with (Z.of_nat (length (pre ++ open ++ attrs ++ [c_gt])))
      by (rewrite (length_app pre); lia).
    apply substring_mid.
Qed.

(** Every matched image is an image element of the page, and the loop
    reads its attribute text. *)
Theorem imgMatches_elements (html : jsstring) (m : match_result) :
  In m (imgMatches html) ->
  exists pre open attrs post,
    html = pre ++ (open ++ attrs ++ [c_gt]) ++ post
    /\ img_element open attrs
    /\ img_attrs m = attrs.
Proof.
  intros H. apply matchAll_sound in H.
  destruct H as (pre & w & post & cp & Hin & M & _ & Hg).
  apply Matches_re_img in M.
  destruct M as (open & attrs & -> & He & ->).
  exists pre, open, attrs, post.
  split; [exact Hin|]. split; [exact He|].
  unfold img_attrs. rewrite Hg. unfold capture.
  cbn [lookup_cap Nat.eqb]. rewrite or_empty_Some.
  replace html with ((pre ++ open) ++ attrs ++ ([c_gt] ++ post))
    by (now rewrite Hin, <- !app_assoc).
  replace (Z.of_nat (length pre) + Z.of_nat (length open))
    with (Z.of_nat (length (pre ++ open)))
    by (rewrite length_app; lia).
  apply substring_mid.
Qed.

(* ================================================================== *)
(** ** Text suffixes *)

Lemma jsstring_eqb_eq (a b : jsstring) : jsstring_eqb a b = true <-> a = b.
Proof.
  revert b. induction a as [|x a IH]; intros [|y b]; simpl;
    try (split; [discriminate | discriminate]); [tauto|].
  rewrite andb_true_iff, Z.eqb_eq, IH. split.
  - intros [-> ->]. reflexivity.
  - intros H. injection H as -> ->. auto.
Qed.


(* ================================================================== *)
(** ** Properties of the analyser *)

(** [Math.round(n / 1024)] on an integer. *)
Lemma Math_round_div_1024 (n : Z) :
  Math_round (js_div n 1024) = (n + 512) / 1024.
Proof.
  unfold Math_round, js_div, Qdiv, Qmult, Qinv, Qplus, Qfloor. simpl.
  replace (n * 1 * 2 + 1024) with (2 * (n + 512)) by lia.
  change 2048 with (2 * 1024).
  apply Z.div_mul_cancel_l; lia.
Qed.

(** The six counts of one page are non-negative. *)
Lemma counts_nonneg (toLowerCase : jsstring -> jsstring) (html : jsstring) :
  0 <= sc_total (count_scripts html)
  /\ 0 <= sc_blocking (count_scripts html)
  /\ 0 <= inlineBytes_of html
  /\ 0 <= ic_total (count_images toLowerCase html)
  /\ 0 <= ic_noLazy (count_images toLowerCase html)
  /\ 0 <= ic_suspectedLarge (count_images toLowerCase html).
Proof.
  unfold inlineBytes_of.
  destruct (count_scripts_spec html) as (-> & -> & ->).
  destruct (count_images_spec toLowerCase html) as (-> & -> & ->).
  repeat split; try apply count_bounds; try lia.
  rewrite <- map_map with (f := script_body) (g := byteLength).
  apply Zsum_byteLength_nonneg.
Qed.

(** What the call returns once the page has been fetched. *)
Lemma checker_returns (toLowerCase : jsstring -> jsstring)
    (fetch : jsstring -> completion Response) (url html : jsstring)
    (res : Response) :
  fetch url = Return res -> ok res = true -> text res = Return html ->
  speed_heuristics_checker toLowerCase fetch url
  = Return (analyse toLowerCase url html).
Proof.
  intros Hf Hok Ht. unfold speed_heuristics_checker, bind.
  now rewrite Hf, Hok, Ht.
Qed.

(** A returned result is the analysis of some HTML text. *)
Lemma checker_result (toLowerCase : jsstring -> jsstring)
    (fetch : jsstring -> completion Response) (url : jsstring)
    (r : AnalysisResult) :
  speed_heuristics_checker toLowerCase fetch url = Return r ->
  exists html, r = analyse toLowerCase url html.
Proof.
  unfold speed_heuristics_checker, bind.
  destruct (fetch url) as [res|e]; [|discriminate].
  destruct (negb (ok res)); [discriminate|].
  destruct (text res) as [html|e]; [|discriminate].
  intros H. injection H as <-. now exists html.
Qed.

(** C2. For every HTML input the [performanceSmellScore] of the result is
    an integer between 0 and 100, both included; so is the score of every
    result the call returns. *)
Theorem performanceSmellScore_range :
  (forall (toLowerCase : jsstring -> jsstring) (url html : jsstring),
     0 <= performanceSmellScore (analyse toLowerCase url html) <= 100)
  /\ (forall (toLowerCase : jsstring -> jsstring)
             (fetch : jsstring -> completion Response) (url : jsstring)
             (r : AnalysisResult),
        speed_heuristics_checker toLowerCase fetch url = Return r ->
        0 <= performanceSmellScore r <= 100).
Proof.
  assert (H : forall toLowerCase url html,
            0 <= performanceSmellScore (analyse toLowerCase url html)
            <= 100).
  { intros. unfold analyse. cbn [performanceSmellScore]. apply score_range. }
  split; [exact H|].
  intros toLowerCase fetch url r Hr.
  apply checker_result in Hr. destruct Hr as (html & ->). apply H.
Qed.

(** C10. For every HTML input the counts of the result satisfy
    [blockingScripts <= totalScripts],
    [imagesMissingLazyLoad <= totalImages] and
    [suspectedLargeImages <= totalImages]: each classified count is the
    number of matched elements of one kind. *)
Theorem classified_counts_le_totals :
  forall (toLowerCase : jsstring -> jsstring) (url html : jsstring),
    let r := analyse toLowerCase url html in
    blockingScripts r <= totalScripts r
    /\ imagesMissingLazyLoad r <= totalImages r
    /\ suspectedLargeImages r <= totalImages r.
Proof.
  intros toLowerCase url html. cbv zeta. unfold analyse.
  cbn [blockingScripts totalScripts imagesMissingLazyLoad totalImages
       suspectedLargeImages].
  destruct (count_scripts_spec html) as (-> & -> & _).
  destruct (count_images_spec toLowerCase html) as (-> & -> & ->).
  repeat split; apply count_bounds.
Qed.

(** The reporter builds the notes of the specification. *)
Lemma make_notes_eq_spec (totalScripts blockingScripts inlineBytes
    totalImages noLazy suspectedLarge : Z) :
  make_notes totalScripts blockingScripts inlineBytes
             totalImages noLazy suspectedLarge
  = Spec.notes totalScripts blockingScripts inlineBytes
               totalImages noLazy suspectedLarge.
Proof.
  unfold make_notes, Spec.notes, push, Spec.script_count_note,
    Spec.blocking_note, Spec.async_note, Spec.inline_note, Spec.lazy_note,
    Spec.no_images_note, Spec.large_note.
  destruct (0 <? blockingScripts), (0 <? inlineBytes), (0 <? totalImages),
    (0 <? suspectedLarge); reflexivity.
Qed.

(** C6. For all counts, and so for every input, the notes are, in this
    order: the script-count note; the note naming the scripts without
    async/defer when [blockingScripts > 0], else the note that most scripts
    appear async/defer; the inline-size note, in whole kilobytes, when
    [inlineBytes > 0]; the note [<noLazy>/<totalImages> images missing
    loading=...] when [totalImages > 0], else the note that no image was
    detected; the large-image note when [suspectedLarge > 0].  The
    sequence has between 2 and 5 entries and is never empty. *)
Theorem notes_in_fixed_order :
  (forall totalScripts blockingScripts inlineBytes
          totalImages noLazy suspectedLarge : Z,
     let notes := make_notes totalScripts blockingScripts inlineBytes
                             totalImages noLazy suspectedLarge in
     notes
     = [Spec.script_count_note totalScripts]
       ++ [if 0 <? blockingScripts then Spec.blocking_note blockingScripts
           else Spec.async_note]
       ++ (if 0 <? inlineBytes then [Spec.inline_note inlineBytes] else [])
       ++ [if 0 <? totalImages then Spec.lazy_note noLazy totalImages
           else Spec.no_images_note]
       ++ (if 0 <? suspectedLarge then [Spec.large_note suspectedLarge]
           else [])
     /\ (2 <= length notes <= 5)%nat
     /\ notes <> [])
  /\ (forall (toLowerCase : jsstring -> jsstring) (url html : jsstring),
        let r := analyse toLowerCase url html in
        notes r
        = make_notes (totalScripts r) (blockingScripts r)
            (inlineBytes_of html) (totalImages r)
            (imagesMissingLazyLoad r) (suspectedLargeImages r)).
Proof.
  split; [|reflexivity].
  intros ts bs ib ti nl sl. cbv zeta. rewrite make_notes_eq_spec.
  unfold Spec.notes.
  destruct (0 <? bs), (0 <? ib), (0 <? ti), (0 <? sl); cbn [app length];
    (split; [reflexivity | split; [lia | discriminate]]).
Qed.

(** C9. For every input the notes have at least 3 entries, hence between
    3 and 5: the script-count note comes first, a blocking-status note
    second, and an image-status note is always among them. *)
Theorem notes_at_least_three :
  forall (toLowerCase : jsstring -> jsstring) (url html : jsstring),
    let r := analyse toLowerCase url html in
    (3 <= length (notes r) <= 5)%nat
    /\ nth_error (notes r) 0 = Some (Spec.script_count_note (totalScripts r))
    /\ nth_error (notes r) 1
       = Some (if 0 <? blockingScripts r
               then Spec.blocking_note (blockingScripts r)
               else Spec.async_note)
    /\ In (if 0 <? totalImages r
           then Spec.lazy_note (imagesMissingLazyLoad r) (totalImages r)
           else Spec.no_images_note) (notes r).
Proof.
  intros toLowerCase url html. cbv zeta. unfold analyse.
  cbn [notes totalScripts blockingScripts totalImages imagesMissingLazyLoad].
  set (sc := count_scripts html). set (ic := count_images toLowerCase html).
  rewrite make_notes_eq_spec. unfold Spec.notes.
  destruct (0 <? sc_blocking sc), (0 <? sc_inlineBytes sc),
    (0 <? ic_total ic), (0 <? ic_suspectedLarge ic); cbn [app length nth_error];
    (split; [lia | split; [reflexivity | split; [reflexivity|]]]);
    cbn [In]; tauto.
Qed.

(** C7. When the fetch yields a response whose status is outside 200-299,
    the call throws the fetch-failure error and returns no result; the
    body of the response is not looked at, so extraction does not begin. *)
Theorem non_2xx_fails :
  forall (toLowerCase : jsstring -> jsstring)
         (fetch : jsstring -> completion Response) (url : jsstring)
         (res : Response),
    fetch url = Return res ->
    ~ (200 <= status res <= 299) ->
    speed_heuristics_checker toLowerCase fetch url
    = Throw (FetchFailure url (status res))
    /\ forall r, speed_heuristics_checker toLowerCase fetch url <> Return r.
Proof.
  intros toLowerCase fetch url res Hf Hst.
  assert (E : speed_heuristics_checker toLowerCase fetch url
              = Throw (FetchFailure url (status res))).
  { unfold speed_heuristics_checker, bind. rewrite Hf.
    assert (Hok : ok res = false).
    { unfold ok. apply andb_false_iff.
      destruct (Z.leb_spec 200 (status res)); [right | now left].
      apply Z.leb_gt. lia. }
    now rewrite Hok. }
  split; [exact E|]. intros r. rewrite E. discriminate.
Qed.

(* ================================================================== *)
(** ** Invocations and the store of pattern objects *)

Lemma returns_ret {A : Type} (v : A) : returns (st_ret v) v.
Proof. intros w. exists []. unfold st_ret. now rewrite app_nil_r. Qed.

Lemma returns_bind {A B : Type} (m : State A) (k : A -> State B)
    (v : A) (u : B) :
  returns m v -> returns (k v) u -> returns (st_bind m k) u.
Proof.
  intros Hm Hk w. destruct (Hm w) as (objs1 & E1).
  destruct (Hk (w ++ objs1)) as (objs2 & E2).
  exists (objs1 ++ objs2). unfold st_bind. rewrite E1, E2.
  now rewrite app_assoc.
Qed.

Lemma update_middle (w : store) (f : RegExpObject -> RegExpObject)
    (o : RegExpObject) (tl : store) :
  update (length w) f (w ++ o :: tl) = w ++ f o :: tl.
Proof. induction w as [|x w IH]; cbn; [reflexivity | now rewrite IH]. Qed.

Lemma search_from_0 (r : regex) (s : jsstring) :
  search_from r s 0 = search r None 0 s.
Proof. reflexivity. Qed.

Lemma search_from_split (r : regex) (input done s : jsstring) :
  input = done ++ s ->
  search_from r input (Z.of_nat (length done))
  = search r (last_or None done) (Z.of_nat (length done)) s.
Proof.
  intros ->. unfold search_from. rewrite Nat2Z.id.
  rewrite firstn_app, firstn_all, Nat.sub_diag, firstn_O, app_nil_r.
  now rewrite skipn_app, skipn_all, Nat.sub_diag.
Qed.

(** [exec] on a new object without the [g] flag is the scan from the start
    of the text, and leaves the object as it was. *)
Lemma exec_new_object (r : regex) (s : jsstring) :
  returns (let* re := new_RegExp r false in RegExpBuiltinExec re s)
          (exec r s).
Proof.
  intros w. exists [{| source := r; global := false; lastIndex := 0 |}].
  unfold st_bind, new_RegExp, RegExpBuiltinExec, st_bind, get_object.
  rewrite nth_middle. cbn [global source lastIndex].
  replace (Z.of_nat (length s) <? 0) with false
    by (symmetry; apply Z.ltb_ge; lia).
  rewrite search_from_0. unfold exec, st_ret.
  now destruct (search r None 0 s) as [[start y]|].
Qed.

Lemma match_new_object (r : regex) (s : jsstring) :
  returns (let* re := new_RegExp r false in String_match s re) (exec r s).
Proof. apply exec_new_object. Qed.

Lemma test_new_object (r : regex) (s : jsstring) :
  returns (let* re := new_RegExp r false in RegExp_test re s) (test r s).
Proof.
  intros w. destruct (exec_new_object r s w) as (objs & E).
  exists objs. unfold st_bind, RegExp_test, st_bind in *.
  destruct (new_RegExp r false w) as [a w1].
  destruct (RegExpBuiltinExec a s w1) as [m w2].
  injection E as -> ->. unfold st_ret, exec, test.
  now destruct (search r None 0 s) as [[start y]|].
Qed.

(** Binding the result of an operation on a new object. *)
Lemma returns_bind_new {A B C : Type} (alloc : State A)
    (op : A -> State B) (k : B -> State C) (v : B) (u : C) :
  returns (let* a := alloc in op a) v ->
  returns (k v) u ->
  returns (let* a := alloc in let* b := op a in k b) u.
Proof.
  intros H Hk w.
  destruct (returns_bind _ k v u H Hk w) as (objs & E).
  exists objs. unfold st_bind in *.
  destruct (alloc w) as [a w1]. exact E.
Qed.

(** The iterator of [matchAll], on an object of its own whose [lastIndex]
    is the position reached in the text, yields what the scan from that
    position yields. *)
Lemma iterator_past_end (r : regex) (s : jsstring) (fuel : nat)
    (w : store) (o : RegExpObject) :
  global o = true -> Z.of_nat (length s) < lastIndex o ->
  exists o',
    RegExpStringIterator fuel (length w) s true (w ++ [o])
    = ([], w ++ [o']).
Proof.
  intros Hg Hi. destruct fuel as [|fuel]; [now exists o|].
  cbn [RegExpStringIterator].
  unfold st_bind at 1.
  unfold RegExpBuiltinExec, st_bind, get_object.
  rewrite nth_middle, Hg.
  replace (Z.of_nat (length s) <? lastIndex o) with true
    by (symmetry; apply Z.ltb_lt; lia).
  unfold set_lastIndex, st_ret. rewrite update_middle.
  eexists. reflexivity.
Qed.

Lemma iterator_scan (r : regex) (input : jsstring) :
  forall (fuel : nat) (w : store) (o : RegExpObject) (done s : jsstring),
    input = done ++ s ->
    source o = r -> global o = true ->
    lastIndex o = Z.of_nat (length done) ->
    exists o',
      RegExpStringIterator fuel (length w) input true (w ++ [o])
      = (matchAll_from fuel r input (last_or None done)
           (Z.of_nat (length done)) s,
         w ++ [o']).
Proof.
  induction fuel as [|fuel IH]; intros w o done s Hin Hr Hg Hi.
  - exists o. reflexivity.
  - cbn [RegExpStringIterator matchAll_from].
    unfold st_bind at 1.
    unfold RegExpBuiltinExec, st_bind at 1, get_object.
    rewrite nth_middle, Hg, Hi, Hr.
    replace (Z.of_nat (length input) <? Z.of_nat (length done)) with false
      by (symmetry; apply Z.ltb_ge; rewrite Hin, length_app; lia).
    rewrite (search_from_split r input done s Hin).
    destruct (search r (last_or None done) (Z.of_nat (length done)) s)
      as [[start y]|] eqn:E.
    + unfold st_bind at 1, set_lastIndex at 1. rewrite update_middle.
      unfold st_ret at 1. cbn [result_of end_index index].
      apply search_sound in E.
      destruct E as (pre & post & -> & -> & Hm & _).
      apply match_at_Matches in Hm.
      destruct Hm as (mw & -> & Hpos & Hprev & _).
      destruct (pos y =? Z.of_nat (length done) + Z.of_nat (length pre))
        eqn:Hempty.
      * unfold st_bind at 1, st_bind at 1, get_object, set_lastIndex.
        rewrite nth_middle, update_middle. cbn [lastIndex source global].
        destruct (rest y) as [|ch tl] eqn:Hrest.
        -- destruct (iterator_past_end r input fuel w
                       {| source := source o; global := global o;
                          lastIndex := pos y + 1 |}) as (o' & E');
             [exact Hg | |].
           { cbn [lastIndex]. rewrite Hin, Hpos, !length_app.
             cbn [length]. lia. }
           exists o'. unfold st_bind. rewrite E'. reflexivity.
        -- destruct (IH w {| source := source o; global := global o;
                             lastIndex := pos y + 1 |}
                        (done ++ pre ++ mw ++ [ch]) tl) as (o' & E').
           { rewrite Hin. rewrite <- !app_assoc. reflexivity. }
           { exact Hr. }
           { exact Hg. }
           { cbn [lastIndex]. rewrite Hpos, !length_app. cbn [length].
             lia. }
           exists o'. unfold st_bind.
           replace (last_or None (done ++ pre ++ mw ++ [ch]))
             with (Some ch) in E'
             by (now rewrite !app_assoc, last_or_snoc).
           replace (Z.of_nat (length (done ++ pre ++ mw ++ [ch])))
             with (pos y + 1) in E'
             by (rewrite Hpos, !length_app; cbn [length]; lia).
           rewrite E'. reflexivity.
      * destruct (IH w {| source := source o; global := global o;
                          lastIndex := pos y |}
                     (done ++ pre ++ mw) (rest y)) as (o' & E').
        { rewrite Hin. rewrite <- !app_assoc. reflexivity. }
        { exact Hr. }
        { exact Hg. }
        { cbn [lastIndex]. rewrite Hpos, !length_app. lia. }
        exists o'. unfold st_bind at 1, st_ret at 1. unfold st_bind.
        replace (last_or None (done ++ pre ++ mw)) with (prev y) in E'
          by (now rewrite Hprev, !last_or_app).
        replace (Z.of_nat (length (done ++ pre ++ mw))) with (pos y) in E'
          by (rewrite Hpos, !length_app; lia).
        rewrite E'. reflexivity.
    + unfold st_bind at 1, set_lastIndex, st_ret. rewrite update_middle.
      eexists. reflexivity.
Qed.

(** [matchAll] with a new pattern object is the global scan of the
    text. *)
Lemma matchAll_new_object (r : regex) (s : jsstring) :
  returns (let* re := new_RegExp r true in String_matchAll s re)
          (matchAll r s).
Proof.
  intros w.
  destruct (iterator_scan r s (S (length s))
              (w ++ [{| source := r; global := true; lastIndex := 0 |}])
              {| source := r; global := true; lastIndex := 0 |} [] s
              eq_refl eq_refl eq_refl eq_refl) as (o' & E).
  exists [{| source := r; global := true; lastIndex := 0 |}; o'].
  unfold st_bind at 1, new_RegExp, String_matchAll.
  unfold st_bind at 1, get_object. rewrite nth_middle.
  unfold st_bind at 1. cbn [global].
  rewrite E. unfold matchAll. cbn [last_or fold_left length Z.of_nat].
  now rewrite <- app_assoc.
Qed.

(** The bound on the number of steps is not reached: any larger bound
    gives the same list. *)
Lemma iterator_fuel (r : regex) (s : jsstring) (fuel : nat) (w : store) :
  (length s < fuel)%nat ->
  fst (RegExpStringIterator fuel (length w) s true
         (w ++ [{| source := r; global := true; lastIndex := 0 |}]))
  = matchAll r s.
Proof.
  intros H.
  destruct (iterator_scan r s fuel w
              {| source := r; global := true; lastIndex := 0 |} [] s
              eq_refl eq_refl eq_refl eq_refl) as (o' & ->).
  cbn [fst last_or fold_left length Z.of_nat].
  now apply matchAll_fuel.
Qed.

Lemma for_of_fold {A B : Type} (body : B -> A -> State B)
    (f : B -> A -> B) (l : list A) :
  (forall acc x, returns (body acc x) (f acc x)) ->
  forall acc, returns (for_of body l acc) (fold_left f l acc).
Proof.
  intros H. induction l as [|x tl IH]; intros acc; cbn [for_of fold_left].
  - apply returns_ret.
  - eapply returns_bind; [apply H | apply IH].
Qed.

Lemma script_step_st_returns (acc : script_counts) (m : match_result) :
  returns (script_step_st acc m) (script_step acc m).
Proof.
  unfold script_step_st. cbv zeta.
  eapply returns_bind_new; [apply test_new_object|].
  eapply returns_bind_new; [apply test_new_object|].
  eapply returns_bind_new; [apply test_new_object|].
  apply returns_ret.
Qed.

Lemma image_step_st_returns (toLowerCase : jsstring -> jsstring)
    (acc : image_counts) (m : match_result) :
  returns (image_step_st toLowerCase acc m) (image_step toLowerCase acc m).
Proof.
  unfold image_step_st. cbv zeta.
  eapply returns_bind_new; [apply test_new_object|].
  eapply returns_bind_new; [apply match_new_object|].
  eapply returns_bind_new; [apply match_new_object|].
  eapply returns_bind_new; [apply match_new_object|].
  apply returns_ret.
Qed.

(** An invocation returns, in every store, the result of the extraction,
    the scorer and the reporter on the page text, and changes no object
    of the store it started in. *)
Lemma analyse_st_returns (toLowerCase : jsstring -> jsstring)
    (url html : jsstring) :
  returns (analyse_st toLowerCase url html) (analyse toLowerCase url html).
Proof.
  unfold analyse_st. cbv zeta.
  eapply returns_bind_new; [apply matchAll_new_object|].
  eapply returns_bind;
    [apply (for_of_fold script_step_st script_step);
     apply script_step_st_returns|].
  eapply returns_bind_new; [apply matchAll_new_object|].
  eapply returns_bind;
    [apply (for_of_fold (image_step_st toLowerCase)
              (image_step toLowerCase));
     apply image_step_st_returns|].
  apply returns_ret.
Qed.

Lemma checker_st_returns (toLowerCase : jsstring -> jsstring)
    (fetch : jsstring -> completion Response) (url : jsstring) :
  returns (speed_heuristics_checker_st toLowerCase fetch url)
          (speed_heuristics_checker toLowerCase fetch url).
Proof.
  unfold speed_heuristics_checker_st, speed_heuristics_checker, bind.
  destruct (fetch url) as [res|e]; [|apply returns_ret].
  destruct (negb (ok res)); [apply returns_ret|].
  destruct (text res) as [html|e]; [|apply returns_ret].
  eapply returns_bind; [apply analyse_st_returns | apply returns_ret].
Qed.

(** The state of a pattern object is observable: on an object with the
    [g] flag that an earlier scan has left at index 5, [exec] misses the
    match at index 0 that it finds with a new object. *)
Lemma used_object_misses_match :
  fst (RegExpBuiltinExec 0 one_img used_store) = None
  /\ (exists m, fst ((let* re := new_RegExp re_img true in
                      RegExpBuiltinExec re one_img) used_store) = Some m)
  /\ test re_img one_img = true.
Proof.
  split; [vm_compute; reflexivity|]. split; [|vm_compute; reflexivity].
  eexists. vm_compute. reflexivity.
Qed.

(** C8. Extraction, scoring and reporting form a function of the url and
    of the HTML text.  An invocation runs in a store of pattern objects,
    the only state of the program that outlives a call (the counters are
    local to it).  In every store it returns the result of the two
    extraction loops, the scorer and the reporter on the text, and it
    changes no object that was in the store, only adding its own.  So two
    invocations on the same url and text return the same result object,
    field for field, notes included, whatever stores they start in: in
    particular an invocation that follows another one, on the same page or
    on another.  The same holds of the whole call when the two fetches
    succeed with the same text. *)
Theorem same_html_same_result :
  forall (toLowerCase : jsstring -> jsstring) (url html : jsstring),
    (forall w : store,
       exists objs : store,
         analyse_st toLowerCase url html w
         = (analyse toLowerCase url html, w ++ objs))
    /\ (forall w1 w2 : store,
          fst (analyse_st toLowerCase url html w1)
          = fst (analyse_st toLowerCase url html w2))
    /\ (forall (url' html' : jsstring) (w : store),
          fst (analyse_st toLowerCase url html
                 (snd (analyse_st toLowerCase url' html' w)))
          = fst (analyse_st toLowerCase url html w))
    /\ (forall (fetch1 fetch2 : jsstring -> completion Response)
               (res1 res2 : Response) (w1 w2 : store),
          fetch1 url = Return res1 -> fetch2 url = Return res2 ->
          ok res1 = true -> ok res2 = true ->
          text res1 = Return html -> text res2 = Return html ->
          fst (speed_heuristics_checker_st toLowerCase fetch1 url w1)
          = fst (speed_heuristics_checker_st toLowerCase fetch2 url w2)
          /\ fst (speed_heuristics_checker_st toLowerCase fetch1 url w1)
             = Return (analyse toLowerCase url html)).
Proof.
  intros toLowerCase url html.
  assert (H : forall w,
             fst (analyse_st toLowerCase url html w)
             = analyse toLowerCase url html).
  { intros w. destruct (analyse_st_returns toLowerCase url html w)
      as (objs & ->). reflexivity. }
  split; [apply analyse_st_returns|].
  split; [intros w1 w2; now rewrite !H|].
  split; [intros url' html' w; now rewrite !H|].
  intros fetch1 fetch2 res1 res2 w1 w2 F1 F2 O1 O2 T1 T2.
  destruct (checker_st_returns toLowerCase fetch1 url w1) as (objs1 & ->).
  destruct (checker_st_returns toLowerCase fetch2 url w2) as (objs2 & ->).
  cbn [fst].
  rewrite (checker_returns toLowerCase fetch1 url html res1 F1 O1 T1).
  rewrite (checker_returns toLowerCase fetch2 url html res2 F2 O2 T2).
  split; reflexivity.
Qed.

(** The score of a result is the specified score of the counts of the
    page. *)
Lemma analyse_score (toLowerCase : jsstring -> jsstring)
    (url html : jsstring) :
  let r := analyse toLowerCase url html in
  performanceSmellScore r
  = Spec.score (totalScripts r) (blockingScripts r)
               (inlineBytes_of html) (totalImages r)
               (imagesMissingLazyLoad r) (suspectedLargeImages r).
Proof.
  cbv zeta. unfold analyse, inlineBytes_of.
  cbn [performanceSmellScore totalScripts blockingScripts totalImages
       imagesMissingLazyLoad suspectedLargeImages].
  apply score_eq_spec.
Qed.

(** C1. The scorer is a function of the six counts alone: for all integer
    counts, the non-negative ones in particular, it returns 100 minus the
    sum of the six penalties of the specification (the two script
    penalties, the two inline tiers, which stack, the flat lazy-loading
    penalty and the large-image penalty), clamped below at 0; and the score
    of a result is the scorer applied to the six counts of the page. *)
Theorem score_is_spec_score :
  (forall totalScripts blockingScripts inlineBytes
          totalImages noLazy suspectedLarge : Z,
     score totalScripts blockingScripts inlineBytes
           totalImages noLazy suspectedLarge
     = Z.max 0
         (100 - (Spec.scripts_penalty totalScripts
                 + Spec.blocking_penalty blockingScripts
                 + Spec.inline_penalty inlineBytes
                 + Spec.heavy_inline_penalty inlineBytes
                 + Spec.lazy_penalty totalImages noLazy
                 + Spec.large_penalty suspectedLarge)))
  /\ (forall (toLowerCase : jsstring -> jsstring) (url html : jsstring),
        let r := analyse toLowerCase url html in
        performanceSmellScore r
        = Spec.score (totalScripts r) (blockingScripts r)
                     (inlineBytes_of html) (totalImages r)
                     (imagesMissingLazyLoad r) (suspectedLargeImages r)).
Proof.
  split.
  - intros. apply score_eq_spec.
  - intros toLowerCase url html. apply analyse_score.
Qed.

(* ================================================================== *)
(** ** The classification of scripts and images *)

Lemma count_split {A : Type} (f g : A -> bool) (l : list A) :
  count f l
  = count (fun a => f a && g a) l + count (fun a => f a && negb (g a)) l.
Proof.
  induction l as [|a l IH]; [reflexivity|].
  rewrite !count_cons, IH. destruct (f a), (g a); cbn [andb negb]; lia.
Qed.


(** C3. Every matched script is a script element of the page, read with
    its attribute text; it is classified as blocking exactly when that
    text contains neither a [defer] nor an [async] token (word boundaries,
    case ignored); [blockingScripts] is the number of matched scripts so
    classified; and the classification does not look at the [src]
    attribute: the blocking scripts are counted among the inline and among
    the external scripts alike. *)
Theorem blocking_iff_no_defer_no_async :
  (forall (html : jsstring) (m : match_result),
     In m (scriptMatches html) ->
     exists pre open attrs body close post,
       html = pre ++ (open ++ attrs ++ [c_gt] ++ body ++ close) ++ post
       /\ script_element open attrs body close
       /\ script_attrs m = attrs)
  /\ (forall attrs : jsstring,
        is_blocking attrs = true
        <-> ~ contains_token (lit "defer") attrs
            /\ ~ contains_token (lit "async") attrs)
  /\ (forall (toLowerCase : jsstring -> jsstring) (url html : jsstring),
        blockingScripts (analyse toLowerCase url html)
        = count (fun m => is_blocking (script_attrs m)) (scriptMatches html))
  /\ (forall html : jsstring,
        count (fun m => is_blocking (script_attrs m)) (scriptMatches html)
        = count (fun m => is_blocking (script_attrs m)
                          && is_inline (script_attrs m))
                (scriptMatches html)
          + count (fun m => is_blocking (script_attrs m)
                            && negb (is_inline (script_attrs m)))
                  (scriptMatches html)).
Proof.
  split; [|split; [|split]].
  - intros html m Hm. apply scriptMatches_elements in Hm.
    destruct Hm as (pre & open & attrs & body & close & post & H1 & H2
                    & H3 & _).
    exists pre, open, attrs, body, close, post. auto.
  - intros attrs. unfold is_blocking.
    rewrite andb_true_iff, !negb_true_iff, <- !not_true_iff_false.
    now rewrite hasDefer_iff, hasAsync_iff.
  - intros toLowerCase url html. unfold analyse. cbn [blockingScripts].
    apply count_scripts_spec.
  - intros html. apply count_split.
Qed.





(** *** The first attribute of a name *)








Lemma attribute_at_quoted (name : jsstring) (valid : jsstring -> Prop)
    (attrs value : jsstring) :
  (exists pre, attribute_at name valid attrs pre value)
  <-> quoted_attribute name attrs value /\ valid value.
Proof.
  split.
  - intros (pre & Hv & nm & ws1 & ws2 & q1 & q2 & post & H).
    split; [|exact Hv]. now exists pre, nm, ws1, ws2, q1, q2, post.
  - intros ((pre & nm & ws1 & ws2 & q1 & q2 & post & H) & Hv).
    exists pre. split; [exact Hv|]. now exists nm, ws1, ws2, q1, q2, post.
Qed.
















(* ================================================================== *)
(** ** The inline byte weight *)








Lemma non_2xx_fails_witness :
  speed_heuristics_checker ascii_toLowerCase fetch_404 some_url
  = Throw (FetchFailure some_url 404)
  /\ forall r,
       speed_heuristics_checker ascii_toLowerCase fetch_404 some_url
       <> Return r.
Proof.
  apply (non_2xx_fails ascii_toLowerCase fetch_404 some_url
           {| status := 404; text := Return (lit "Not Found") |}).
  - reflexivity.
  - cbn [status]. lia.
Defined.

Lemma same_html_same_result_witness :
  fst (speed_heuristics_checker_st ascii_toLowerCase fetch_200 some_url [])
  = fst (speed_heuristics_checker_st ascii_toLowerCase fetch_203 some_url
           used_store)
  /\ fst (speed_heuristics_checker_st ascii_toLowerCase fetch_200 some_url
            [])
     = Return (analyse ascii_toLowerCase some_url h1_page).
Proof.
  apply (proj2 (proj2 (proj2
           (same_html_same_result ascii_toLowerCase some_url h1_page)))
           fetch_200 fetch_203
           {| status := 200; text := Return h1_page |}
           {| status := 203; text := Return h1_page |} [] used_store);
    reflexivity.
Defined.

Lemma performanceSmellScore_range_witness :
  0 <= performanceSmellScore (analyse ascii_toLowerCase some_url h1_page)
  <= 100.
Proof.
  apply (proj2 performanceSmellScore_range ascii_toLowerCase fetch_200
           some_url (analyse ascii_toLowerCase some_url h1_page)).
  reflexivity.
Defined.

Lemma blocking_iff_no_defer_no_async_witness :
  exists pre open attrs body close post,
    h1_page = pre ++ (open ++ attrs ++ [c_gt] ++ body ++ close) ++ post
    /\ script_element open attrs body close
    /\ script_attrs
         (nth 0 (scriptMatches h1_page) (MatchResult 0 0 (fun _ => None)))
       = attrs.
Proof.
  apply (proj1 blocking_iff_no_defer_no_async h1_page).
  apply nth_In. apply Nat.ltb_lt. vm_compute. reflexivity.
Defined.

(* ================================================================== *)
(** ** The analyser on small pages *)

(** A page without script and without image: score 100 and three notes. *)
Example empty_page :
  let r := analyse ascii_toLowerCase some_url (lit "<html></html>") in
  totalScripts r = 0 /\ totalImages r = 0
  /\ performanceSmellScore r = 100
  /\ notes r = [lit "0 <script> tags detected.";
                lit "Most scripts appear async/defer " ++ [0x2705];
                lit "No <img> tags detected."].
Proof. vm_compute. repeat split; reflexivity. Qed.

(** Fifteen external scripts without [defer] or [async]: the two script
    penalties are 10 and 40. *)
Example fifteen_blocking_scripts :
  let page := concat (repeat (lit "<script src='a.js'></script>") 15) in
  let r := analyse ascii_toLowerCase some_url page in
  totalScripts r = 15 /\ blockingScripts r = 15
  /\ inlineScriptKB r = 0 /\ performanceSmellScore r = 50.
Proof. vm_compute. repeat split; reflexivity. Qed.

(** A large photograph without [loading]: it is counted as not lazy and as
    suspected large. *)
Example large_photo :
  let r := analyse ascii_toLowerCase some_url
             (lit "<img src='photo.jpg' width='1200'>") in
  totalImages r = 1 /\ imagesMissingLazyLoad r = 1
  /\ suspectedLargeImages r = 1 /\ performanceSmellScore r = 85.
Proof. vm_compute. repeat split; reflexivity. Qed.

(** The tokens are whole words: [deferred] is not [defer], and an
    attribute such as [data-async] contains the token [async]. *)
Example token_examples :
  hasDefer (lit " deferred") = false
  /\ hasDefer (lit " DEFER") = true
  /\ hasAsync (lit " data-async='1'") = true
  /\ hasSrc (lit " src=''") = false
  /\ hasSrc (lit " src = 'a.js'") = true.
Proof. vm_compute. repeat split; reflexivity. Qed.

(** The matcher follows the priorities of the language: the script body
    stops at the first closing tag, and matches do not overlap. *)
Example two_scripts :
  scripts_of (lit "<script a>x</script>y</SCRIPT><script>z</script>")
  = [(lit " a", lit "x"); ([], lit "z")].
Proof. vm_compute. reflexivity. Qed.

(* ================================================================== *)
(** ** The outcomes of a call *)

(** The three ways a call ends without a result, and the one way it ends
    with one. *)
Lemma checker_cases (toLowerCase : jsstring -> jsstring)
    (fetch : jsstring -> completion Response) (url : jsstring) :
  match fetch url with
  | Throw e => speed_heuristics_checker toLowerCase fetch url = Throw e
  | Return res =>
      if ok res then
        match text res with
        | Throw e => speed_heuristics_checker toLowerCase fetch url = Throw e
        | Return html =>
            speed_heuristics_checker toLowerCase fetch url
            = Return (analyse toLowerCase url html)
        end
      else
        speed_heuristics_checker toLowerCase fetch url
        = Throw (FetchFailure url (status res))
  end.
Proof.
  unfold speed_heuristics_checker, bind, FetchFailure.
  destruct (fetch url) as [res|e]; [|reflexivity].
  destruct (ok res); cbn [negb]; [|reflexivity].
  destruct (text res); reflexivity.
Qed.

(** X1. A call returns a result exactly when the fetch resolves with a
    status in 200-299 and the body text can be read, and the result is then
    the analysis of that text; a rejected fetch and a rejected body read
    are thrown on unchanged, without being wrapped. *)
Theorem checker_outcomes :
  forall (toLowerCase : jsstring -> jsstring)
         (fetch : jsstring -> completion Response) (url : jsstring),
    (forall r : AnalysisResult,
       speed_heuristics_checker toLowerCase fetch url = Return r
       <-> exists res html,
             fetch url = Return res /\ 200 <= status res <= 299
             /\ text res = Return html
             /\ r = analyse toLowerCase url html)
    /\ (forall e : Error,
          fetch url = Throw e ->
          speed_heuristics_checker toLowerCase fetch url = Throw e)
    /\ (forall (res : Response) (e : Error),
          fetch url = Return res -> 200 <= status res <= 299 ->
          text res = Throw e ->
          speed_heuristics_checker toLowerCase fetch url = Throw e).
Proof.
  intros toLowerCase fetch url.
  pose proof (checker_cases toLowerCase fetch url) as H.
  assert (Hok : forall res, ok res = true <-> 200 <= status res <= 299).
  { intros res. unfold ok. rewrite andb_true_iff, !Z.leb_le. tauto. }
  split; [|split].
  - intros r. split.
    + intros Hr. destruct (fetch url) as [res|e]; [|congruence].
      destruct (ok res) eqn:O; [|congruence].
      destruct (text res) as [html|e] eqn:T; [|congruence].
      exists res, html. rewrite H in Hr. injection Hr as <-.
      repeat split; try apply Hok; auto.
    + intros (res & html & F & S & T & ->). rewrite F in H.
      apply Hok in S. rewrite S, T in H. exact H.
  - intros e F. now rewrite F in H.
  - intros res e F S T. rewrite F in H. apply Hok in S.
    now rewrite S, T in H.
Qed.

Lemma checker_outcomes_witness :
  speed_heuristics_checker ascii_toLowerCase fetch_rejects some_url
  = Throw network_error
  /\ speed_heuristics_checker ascii_toLowerCase fetch_body_fails some_url
     = Throw network_error.
Proof.
  split.
  - apply (proj1 (proj2 (checker_outcomes ascii_toLowerCase fetch_rejects
                           some_url))).
    reflexivity.
  - apply (proj2 (proj2 (checker_outcomes ascii_toLowerCase fetch_body_fails
                           some_url))
             {| status := 200; text := Throw network_error |}).
    + reflexivity.
    + cbn [status]. lia.
    + reflexivity.
Defined.

(* ================================================================== *)
(** ** The route *)

Lemma route_invalid (url : option query_value) :
  query_falsy url || query_not_string url = true
  <-> url = None \/ url = Some (QueryString []) \/ url = Some QueryOther.
Proof.
  destruct url as [[[|c s]|]|]; cbn; split; intros H; auto;
    try discriminate;
    destruct H as [H|[H|H]]; discriminate.
Qed.

(** X2. The route answers 400 with the error [Missing or invalid url]
    exactly when the [url] query parameter is missing, is the empty string
    or is not a string; in that case the answer does not depend on the
    network: no fetch is made. *)
Theorem route_rejects_invalid_url :
  forall (toLowerCase : jsstring -> jsstring)
         (url : option query_value),
    (forall fetch : jsstring -> completion Response,
       code (speed_heuristics_route toLowerCase fetch url) = 400
       <-> url = None \/ url = Some (QueryString [])
           \/ url = Some QueryOther)
    /\ (url = None \/ url = Some (QueryString []) \/ url = Some QueryOther ->
        forall fetch : jsstring -> completion Response,
          speed_heuristics_route toLowerCase fetch url
          = {| code := 400;
               body := ErrorBody (lit "Missing or invalid url") |}).
Proof.
  intros toLowerCase url. split.
  - intros fetch. rewrite <- route_invalid. unfold speed_heuristics_route.
    destruct (query_falsy url || query_not_string url) eqn:E.
    + cbn [code]. tauto.
    + destruct url as [[[|c s]|]|]; try discriminate E.
      destruct (speed_heuristics_checker toLowerCase fetch (c :: s));
        cbn [code]; split; intros; discriminate.
  - intros H fetch. apply route_invalid in H.
    unfold speed_heuristics_route. now rewrite H.
Qed.

Lemma route_rejects_invalid_url_witness :
  speed_heuristics_route ascii_toLowerCase fetch_200 (Some QueryOther)
  = {| code := 400; body := ErrorBody (lit "Missing or invalid url") |}.
Proof.
  apply (proj2 (route_rejects_invalid_url ascii_toLowerCase
                  (Some QueryOther))).
  right. right. reflexivity.
Defined.

(** X3. For a non-empty string [url] the route answers 200 with the
    analysis when the call returns, and 500 with the message of the thrown
    error when it throws; a page answered with a status outside 200-299 is
    reported as a 500 whose message carries that status, and the answer of
    the route is always one of 200, 400 and 500. *)
Theorem route_maps_outcomes :
  forall (toLowerCase : jsstring -> jsstring)
         (fetch : jsstring -> completion Response),
    (forall (c : code_unit) (s : jsstring) (r : AnalysisResult),
       speed_heuristics_checker toLowerCase fetch (c :: s) = Return r ->
       speed_heuristics_route toLowerCase fetch (Some (QueryString (c :: s)))
       = {| code := 200; body := ResultBody r |})
    /\ (forall (c : code_unit) (s : jsstring) (e : Error),
          speed_heuristics_checker toLowerCase fetch (c :: s) = Throw e ->
          speed_heuristics_route toLowerCase fetch
            (Some (QueryString (c :: s)))
          = {| code := 500; body := ErrorBody (message e) |})
    /\ (forall (c : code_unit) (s : jsstring) (res : Response),
          fetch (c :: s) = Return res ->
          ~ (200 <= status res <= 299) ->
          speed_heuristics_route toLowerCase fetch
            (Some (QueryString (c :: s)))
          = {| code := 500;
               body := ErrorBody
                         (lit "Failed to fetch " ++ (c :: s) ++ lit ": "
                          ++ Number_toString (status res)) |})
    /\ (forall url : option query_value,
          let answer := speed_heuristics_route toLowerCase fetch url in
          code answer = 200 \/ code answer = 400 \/ code answer = 500).
Proof.
  intros toLowerCase fetch.
  assert (H1 : forall c s e,
            speed_heuristics_checker toLowerCase fetch (c :: s) = Throw e ->
            speed_heuristics_route toLowerCase fetch
              (Some (QueryString (c :: s)))
            = {| code := 500; body := ErrorBody (message e) |}).
  { intros c s e H. unfold speed_heuristics_route.
    cbn [query_falsy query_not_string orb]. now rewrite H. }
  split; [|split; [exact H1|split]].
  - intros c s r H. unfold speed_heuristics_route.
    cbn [query_falsy query_not_string orb]. now rewrite H.
  - intros c s res F S.
    pose proof (checker_cases toLowerCase fetch (c :: s)) as H.
    rewrite F in H.
    assert (O : ok res = false).
    { unfold ok. apply andb_false_iff.
      destruct (Z.leb_spec 200 (status res)); [right | now left].
      apply Z.leb_gt. lia. }
    rewrite O in H. apply H1 in H. exact H.
  - intros url. cbv zeta. unfold speed_heuristics_route.
    destruct (query_falsy url || query_not_string url); [cbn; auto|].
    destruct url as [[s|]|]; try (cbn; auto).
    destruct (speed_heuristics_checker toLowerCase fetch s); cbn; auto.
Qed.

Lemma route_maps_outcomes_witness :
  speed_heuristics_route ascii_toLowerCase fetch_200
    (Some (QueryString some_url))
  = {| code := 200;
       body := ResultBody (analyse ascii_toLowerCase some_url h1_page) |}
  /\ speed_heuristics_route ascii_toLowerCase fetch_rejects
       (Some (QueryString some_url))
     = {| code := 500; body := ErrorBody (lit "fetch failed") |}
  /\ speed_heuristics_route ascii_toLowerCase fetch_404
       (Some (QueryString some_url))
     = {| code := 500;
          body := ErrorBody (lit "Failed to fetch https://example.com/: 404")
       |}.
Proof.
  split; [|split].
  - apply (proj1 (route_maps_outcomes ascii_toLowerCase fetch_200)
             104 (lit "ttps://example.com/")).
    reflexivity.
  - apply (proj1 (proj2 (route_maps_outcomes ascii_toLowerCase
                           fetch_rejects))
             104 (lit "ttps://example.com/") network_error).
    reflexivity.
  - apply (proj1 (proj2 (proj2 (route_maps_outcomes ascii_toLowerCase
                                  fetch_404)))
             104 (lit "ttps://example.com/")
             {| status := 404; text := Return (lit "Not Found") |}).
    + reflexivity.
    + cbn [status]. lia.
Defined.

(* ================================================================== *)
(** ** Images and lazy loading *)

(** X4. Every matched image is an image element of the page, read with
    its attribute text; it counts as lazy exactly when that text holds a
    quoted [loading] attribute whose value is [lazy] (case ignored);
    [totalImages] is the number of matched images and
    [imagesMissingLazyLoad] the number of those that are not lazy. *)
Theorem lazy_classification :
  (forall (html : jsstring) (m : match_result),
     In m (imgMatches html) ->
     exists pre open attrs post,
       html = pre ++ (open ++ attrs ++ [c_gt]) ++ post
       /\ img_element open attrs
       /\ img_attrs m = attrs)
  /\ (forall attrs : jsstring,
        hasLazy attrs = true
        <-> exists value,
              quoted_attribute (lit "loading") attrs value
              /\ same_ignoring_case (lit "lazy") value)
  /\ (forall (toLowerCase : jsstring -> jsstring) (url html : jsstring),
        let r := analyse toLowerCase url html in
        totalImages r = Z.of_nat (length (imgMatches html))
        /\ imagesMissingLazyLoad r
           = count (fun m => negb (hasLazy (img_attrs m))) (imgMatches html)).
Proof.
  split; [|split].
  - apply imgMatches_elements.
  - apply hasLazy_iff.
  - intros toLowerCase url html. cbv zeta. unfold analyse.
    cbn [totalImages imagesMissingLazyLoad].
    destruct (count_images_spec toLowerCase html) as (H1 & H2 & _). auto.
Qed.

Lemma lazy_classification_witness :
  exists pre open attrs post,
    h1_page = pre ++ (open ++ attrs ++ [c_gt]) ++ post
    /\ img_element open attrs
    /\ img_attrs
         (nth 0 (imgMatches h1_page) (MatchResult 0 0 (fun _ => None)))
       = attrs.
Proof.
  apply (proj1 lazy_classification h1_page).
  apply nth_In. apply Nat.ltb_lt. vm_compute. reflexivity.
Defined.

(* ================================================================== *)
(** ** Attribute values without quotes *)

Lemma quoted_attribute_quote (name attrs value : jsstring) :
  quoted_attribute name attrs value -> exists q, is_quote q /\ In q attrs.
Proof.
  intros (pre & nm & ws1 & ws2 & q1 & q2 & post & -> & _ & _ & _ & _ & Hq
          & _).
  exists q1. split; [exact Hq|].
  apply in_or_app. right. apply in_or_app. left.
  apply in_or_app. right. apply in_or_app. right.
  apply in_or_app. right. apply in_or_app. right. now left.
Qed.

Lemma no_quote_no_attribute (name attrs : jsstring) :
  Forall (fun c => ~ is_quote c) attrs ->
  forall value, ~ quoted_attribute name attrs value.
Proof.
  intros F value H. apply quoted_attribute_quote in H.
  destruct H as (q & Hq & Hin).
  rewrite Forall_forall in F. exact (F q Hin Hq).
Qed.

(** X5. Attribute values are only recognised between quote characters: in
    an attribute text without any quote character no [src], [loading],
    [width] or [height] is found, so a script written that way counts as
    inline and an image as missing lazy loading and never as suspected
    large. *)
Theorem unquoted_values_not_recognised :
  forall attrs : jsstring,
    Forall (fun c => ~ is_quote c) attrs ->
    hasSrc attrs = false /\ is_inline attrs = true
    /\ hasLazy attrs = false
    /\ widthVal attrs = None /\ heightVal attrs = None
    /\ forall toLowerCase : jsstring -> jsstring,
         srcVal toLowerCase attrs = []
         /\ suspected_large toLowerCase attrs = false.
Proof.
  intros attrs F.
  assert (Hs : hasSrc attrs = false).
  { destruct (hasSrc attrs) eqn:E; [|reflexivity].
    apply hasSrc_iff in E. destruct E as (v & Hq & _).
    now apply (no_quote_no_attribute _ _ F) in Hq. }
  assert (Hl : hasLazy attrs = false).
  { destruct (hasLazy attrs) eqn:E; [|reflexivity].
    apply hasLazy_iff in E. destruct E as (v & Hq & _).
    now apply (no_quote_no_attribute _ _ F) in Hq. }
  assert (Hw : widthVal attrs = None).
  { apply widthVal_None. intros (v & Hq & _).
    now apply (no_quote_no_attribute _ _ F) in Hq. }
  assert (Hh : heightVal attrs = None).
  { apply heightVal_None. intros (v & Hq & _).
    now apply (no_quote_no_attribute _ _ F) in Hq. }
  split; [exact Hs|]. split; [unfold is_inline; now rewrite Hs|].
  split; [exact Hl|]. split; [exact Hw|]. split; [exact Hh|].
  intros toLowerCase. split.
  - destruct (srcVal_spec toLowerCase attrs) as [[_ H]|(v & Hq & _)];
      [exact H|].
    now apply (no_quote_no_attribute _ _ F) in Hq.
  - unfold suspected_large. cbv zeta. rewrite Hw, Hh.
    cbn [and_gt truthy andb orb]. apply andb_false_r.
Qed.

Lemma unquoted_values_not_recognised_witness :
  hasSrc unquoted_attrs = false /\ is_inline unquoted_attrs = true
  /\ hasLazy unquoted_attrs = false
  /\ widthVal unquoted_attrs = None /\ heightVal unquoted_attrs = None
  /\ forall toLowerCase : jsstring -> jsstring,
       srcVal toLowerCase unquoted_attrs = []
       /\ suspected_large toLowerCase unquoted_attrs = false.
Proof.
  apply (unquoted_values_not_recognised unquoted_attrs).
  unfold unquoted_attrs, is_quote, c_dquote, c_squote.
  repeat (constructor; [intros [H|H]; discriminate H|]).
  constructor.
Defined.

(* ================================================================== *)
(** ** Pages without markup, and unterminated elements *)

Lemma canonicalize_not_letter (p c : code_unit) :
  p < 65 -> canonicalize p = canonicalize c -> c = p.
Proof.
  unfold canonicalize. intros Hp.
  destruct (Z.leb_spec 97 p), (Z.leb_spec p 122); cbn [andb]; try lia;
    destruct (Z.leb_spec 97 c), (Z.leb_spec c 122); cbn [andb]; lia.
Qed.

Lemma same_ignoring_case_app_l (tok mid l r : jsstring) :
  same_ignoring_case tok mid ->
  occurs_ignoring_case tok (l ++ mid ++ r).
Proof. intros H. now exists l, mid, r. Qed.

(** What the page must contain for a script, or an image, to be
    matched. *)
Lemma script_match_needs (html : jsstring) (m : match_result) :
  In m (scriptMatches html) ->
  In 60 html /\ In c_gt html
  /\ occurs_ignoring_case (lit "<script") html
  /\ occurs_ignoring_case (lit "</script>") html.
Proof.
  intros H. apply scriptMatches_elements in H.
  destruct H as (pre & open & attrs & body & close & post & -> & He & _).
  destruct He as (Ho & _ & _ & Hc).
  split; [|split; [|split]].
  - inversion Ho as [|p c tok w Hpc Hrest]; subst.
    apply canonicalize_not_letter in Hpc; [|lia]. subst c.
    apply in_or_app. right. now left.
  - apply in_or_app. right. apply in_or_app. left.
    apply in_or_app. right. apply in_or_app. right. now left.
  - exists pre, open, ((attrs ++ [c_gt] ++ body ++ close) ++ post).
    split; [now rewrite <- !app_assoc | exact Ho].
  - exists (pre ++ open ++ attrs ++ [c_gt] ++ body), close, post.
    split; [now rewrite <- !app_assoc | exact Hc].
Qed.

Lemma img_match_needs (html : jsstring) (m : match_result) :
  In m (imgMatches html) ->
  In 60 html /\ In c_gt html /\ occurs_ignoring_case (lit "<img") html.
Proof.
  intros H. apply imgMatches_elements in H.
  destruct H as (pre & open & attrs & post & -> & He & _).
  destruct He as (Ho & _ & _).
  split; [|split].
  - inversion Ho as [|p c tok w Hpc Hrest]; subst.
    apply canonicalize_not_letter in Hpc; [|lia]. subst c.
    apply in_or_app. right. now left.
  - apply in_or_app. right. apply in_or_app. left.
    apply in_or_app. right. apply in_or_app. right. now left.
  - exists pre, open, ((attrs ++ [c_gt]) ++ post).
    split; [now rewrite <- !app_assoc | exact Ho].
Qed.

Lemma no_matches {A : Type} (l : list A) : (forall a, ~ In a l) -> l = [].
Proof.
  destruct l as [|a l]; [reflexivity|]. intros H.
  exfalso. apply (H a). now left.
Qed.

Lemma analyse_nothing_matched (toLowerCase : jsstring -> jsstring)
    (url html : jsstring) :
  scriptMatches html = [] -> imgMatches html = [] ->
  analyse toLowerCase url html = clean_result url.
Proof.
  intros Hs Hi. unfold analyse, count_scripts, count_images.
  rewrite Hs, Hi. reflexivity.
Qed.

(** X6. A page without any [<] matches nothing: whatever its text, the
    result has zero counts, the score 100 and exactly the three notes
    [0 <script> tags detected.], [Most scripts appear async/defer] and
    [No <img> tags detected.]. *)
Theorem page_without_markup :
  forall (toLowerCase : jsstring -> jsstring) (url html : jsstring),
    ~ In 60 html ->
    analyse toLowerCase url html = clean_result url.
Proof.
  intros toLowerCase url html H. apply analyse_nothing_matched.
  - apply no_matches. intros m Hm. apply script_match_needs in Hm. tauto.
  - apply no_matches. intros m Hm. apply img_match_needs in Hm. tauto.
Qed.

Lemma page_without_markup_witness :
  analyse ascii_toLowerCase some_url (lit "Hello, world > everyone")
  = clean_result some_url.
Proof.
  apply page_without_markup.
  cbn. intros H. repeat (destruct H as [H|H]; [discriminate H|]). exact H.
Defined.

(** X7. Unterminated elements are not matched: when no [</script>] occurs
    in the page, in any case, no script is counted and no inline weight is
    reported, whatever opening tags the page has; when the page has no [>]
    or no [<img], no image is counted. *)
Theorem unterminated_elements_ignored :
  forall (toLowerCase : jsstring -> jsstring) (url html : jsstring),
    let r := analyse toLowerCase url html in
    (~ occurs_ignoring_case (lit "</script>") html ->
     totalScripts r = 0 /\ blockingScripts r = 0 /\ inlineScriptKB r = 0)
    /\ (~ In c_gt html \/ ~ occurs_ignoring_case (lit "<img") html ->
        totalImages r = 0 /\ imagesMissingLazyLoad r = 0
        /\ suspectedLargeImages r = 0).
Proof.
  intros toLowerCase url html. cbv zeta. split.
  - intros H.
    assert (Hs : scriptMatches html = []).
    { apply no_matches. intros m Hm. apply script_match_needs in Hm.
      tauto. }
    unfold analyse, count_scripts. rewrite Hs.
    cbn [totalScripts blockingScripts inlineScriptKB fold_left sc_total
         sc_blocking sc_inlineBytes].
    repeat split.
  - intros H.
    assert (Hi : imgMatches html = []).
    { apply no_matches. intros m Hm. apply img_match_needs in Hm. tauto. }
    unfold analyse, count_images. rewrite Hi.
    cbn [totalImages imagesMissingLazyLoad suspectedLargeImages fold_left
         ic_total ic_noLazy ic_suspectedLarge].
    repeat split.
Qed.

Lemma occurs_test (tok s : jsstring) :
  test (Lits tok) s = true <-> occurs_ignoring_case tok s.
Proof.
  rewrite test_Matches. unfold occurs_ignoring_case. split.
  - intros (pre & w & post & cp & -> & M). apply Matches_Lits in M.
    destruct M as (Hw & _). now exists pre, w, post.
  - intros (pre & mid & post & -> & Hw).
    exists pre, mid, post, []. split; [reflexivity|].
    apply Matches_Lits. auto.
Qed.

Lemma unterminated_elements_ignored_witness :
  (let r := analyse ascii_toLowerCase some_url
              (lit "<script>alert(1)<script src='a.js'>") in
   totalScripts r = 0 /\ blockingScripts r = 0 /\ inlineScriptKB r = 0)
  /\ (let r := analyse ascii_toLowerCase some_url
                 (lit "<p>text</p><image src='a.png'>") in
      totalImages r = 0 /\ imagesMissingLazyLoad r = 0
      /\ suspectedLargeImages r = 0).
Proof.
  split.
  - apply (proj1 (unterminated_elements_ignored ascii_toLowerCase some_url
                    (lit "<script>alert(1)<script src='a.js'>"))).
    intros H. apply occurs_test in H. vm_compute in H. discriminate H.
  - apply (proj2 (unterminated_elements_ignored ascii_toLowerCase some_url
                    (lit "<p>text</p><image src='a.png'>"))).
    right. intros H. apply occurs_test in H. vm_compute in H.
    discriminate H.
Defined.

(* ================================================================== *)
(** ** Elements that are present are found *)

Lemma Forall_any_char (s : jsstring) :
  Forall (fun ch => char_in any_char ch = true) s.
Proof. apply Forall_forall. intros. apply char_in_any_char. Qed.

Lemma Matches_re_script_intro (open attrs body close : jsstring)
    (pv : option code_unit) (p : Z) (tl : jsstring) :
  script_element open attrs body close ->
  exists cp,
    Matches re_script pv p (open ++ attrs ++ [c_gt] ++ body ++ close) tl cp.
Proof.
  intros (Ho & Fa & Hb & Hc). unfold re_script. cbn [Matches].
  eexists.
  exists open, (attrs ++ [c_gt] ++ body ++ close), []. eexists.
  split; [reflexivity|]. split; [reflexivity|].
  split; [apply Matches_Lits; auto|].
  exists [], (attrs ++ [c_gt] ++ body ++ close), []. eexists.
  split; [reflexivity|]. split; [reflexivity|]. split.
  { split; [reflexivity|]. split; [|reflexivity].
    rewrite (last_or_word (lit "<script") open pv Ho eq_refl).
    replace (hd_error ((attrs ++ [c_gt] ++ body ++ close) ++ tl))
      with (hd_error (attrs ++ [c_gt])) by (now destruct attrs).
    now rewrite Hb. }
  exists attrs, ([c_gt] ++ body ++ close). do 2 eexists.
  split; [reflexivity|]. split; [reflexivity|]. split.
  { eexists. split; [reflexivity|]. split; [|reflexivity].
    now apply (Forall_char_in not_gt _ attrs char_in_not_gt). }
  exists [c_gt], (body ++ close), []. eexists.
  split; [reflexivity|]. split; [reflexivity|]. split.
  { exists c_gt. repeat split. }
  exists body, close. eexists. exists [].
  split; [reflexivity|]. split; [reflexivity|]. split.
  { eexists. split; [reflexivity|]. split; [|reflexivity].
    apply Forall_any_char. }
  apply Matches_Lits. auto.
Qed.

Lemma Matches_re_img_intro (open attrs : jsstring)
    (pv : option code_unit) (p : Z) (tl : jsstring) :
  img_element open attrs ->
  exists cp, Matches re_img pv p (open ++ attrs ++ [c_gt]) tl cp.
Proof.
  intros (Ho & Fa & Hb). unfold re_img. cbn [Matches].
  eexists.
  exists open, (attrs ++ [c_gt]), []. eexists.
  split; [reflexivity|]. split; [reflexivity|].
  split; [apply Matches_Lits; auto|].
  exists [], (attrs ++ [c_gt]), []. eexists.
  split; [reflexivity|]. split; [reflexivity|]. split.
  { split; [reflexivity|]. split; [|reflexivity].
    rewrite (last_or_word (lit "<img") open pv Ho eq_refl).
    replace (hd_error ((attrs ++ [c_gt]) ++ tl))
      with (hd_error (attrs ++ [c_gt])) by (now destruct attrs).
    now rewrite Hb. }
  exists attrs, [c_gt]. eexists. exists [].
  split; [reflexivity|]. split; [reflexivity|]. split.
  { eexists. split; [reflexivity|]. split; [|reflexivity].
    now apply (Forall_char_in not_gt _ attrs char_in_not_gt). }
  exists c_gt. repeat split.
Qed.

(** A pattern that matches somewhere in the text has at least one global
    match. *)
Lemma matchAll_nonempty (r : regex) (input pre w post : jsstring)
    (cp : list (nat * (Z * Z))) :
  input = pre ++ w ++ post ->
  Matches r (last_or None pre) (Z.of_nat (length pre)) w post cp ->
  matchAll r input <> [].
Proof.
  intros Hin M. unfold matchAll. cbn [matchAll_from].
  apply Matches_match_at in M.
  pose proof (search_complete r input None 0 pre (w ++ post) Hin M) as Hs.
  destruct (search r None 0 input) as [[start y]|];
    [discriminate | contradiction].
Qed.

Lemma length_pos {A : Type} (l : list A) :
  0 < Z.of_nat (length l) <-> l <> [].
Proof.
  destruct l; cbn [length]; split; intros H; try lia;
    try discriminate; contradiction.
Qed.

(** X8. [totalScripts] is positive exactly when the page contains a script
    element (an opening [<script] not followed by a word character, an
    attribute text without [>], [>], a body and a closing [</script>]),
    and [totalImages] exactly when it contains an image element
    ([<img] not followed by a word character, an attribute text, [>]),
    wherever the element stands in the text. *)
Theorem present_elements_are_found :
  forall (toLowerCase : jsstring -> jsstring) (url html : jsstring),
    let r := analyse toLowerCase url html in
    (0 < totalScripts r
     <-> exists pre open attrs body close post,
           html = pre ++ (open ++ attrs ++ [c_gt] ++ body ++ close) ++ post
           /\ script_element open attrs body close)
    /\ (0 < totalImages r
        <-> exists pre open attrs post,
              html = pre ++ (open ++ attrs ++ [c_gt]) ++ post
              /\ img_element open attrs).
Proof.
  intros toLowerCase url html. cbv zeta. unfold analyse.
  cbn [totalScripts totalImages].
  destruct (count_scripts_spec html) as (-> & _ & _).
  destruct (count_images_spec toLowerCase html) as (-> & _ & _).
  rewrite !length_pos. split; split.
  - intros H. destruct (scriptMatches html) as [|m l] eqn:E;
      [contradiction|].
    assert (Hm : In m (scriptMatches html)) by (rewrite E; now left).
    apply scriptMatches_elements in Hm.
    destruct Hm as (pre & open & attrs & body & close & post & H1 & H2 & _).
    exists pre, open, attrs, body, close, post. auto.
  - intros (pre & open & attrs & body & close & post & H1 & H2).
    destruct (Matches_re_script_intro open attrs body close
                (last_or None pre) (Z.of_nat (length pre)) post H2)
      as (cp & M).
    exact (matchAll_nonempty re_script html pre _ post cp H1 M).
  - intros H. destruct (imgMatches html) as [|m l] eqn:E; [contradiction|].
    assert (Hm : In m (imgMatches html)) by (rewrite E; now left).
    apply imgMatches_elements in Hm.
    destruct Hm as (pre & open & attrs & post & H1 & H2 & _).
    exists pre, open, attrs, post. auto.
  - intros (pre & open & attrs & post & H1 & H2).
    destruct (Matches_re_img_intro open attrs
                (last_or None pre) (Z.of_nat (length pre)) post H2)
      as (cp & M).
    exact (matchAll_nonempty re_img html pre _ post cp H1 M).
Qed.

Lemma present_elements_are_found_witness :
  0 < totalImages (analyse ascii_toLowerCase some_url image_in_script_page).
Proof.
  apply (proj2 (present_elements_are_found ascii_toLowerCase some_url
                  image_in_script_page)).
  exists (lit "<script>document.write('"), (lit "<img"),
    (lit " src=a.png"), (lit "')</script>").
  split; [reflexivity|]. split; [|split].
  - repeat constructor.
  - repeat (constructor; [intros H; discriminate H|]). constructor.
  - reflexivity.
Defined.

(* ================================================================== *)
(** ** Matches do not overlap *)

(** The matched texts of a global scan lie one after the other in the
    text scanned: their lengths add up to at most its length. *)
Lemma matchAll_from_spans (r : regex) (input : jsstring) :
  forall fuel s pv p,
    Zsum (map (fun m => end_index m - index m)
              (matchAll_from fuel r input pv p s))
    <= Z.of_nat (length s).
Proof.
  induction fuel as [|fuel IH]; intros s pv p; cbn [matchAll_from].
  - cbn. lia.
  - destruct (search r pv p s) as [[start y]|] eqn:E; [|cbn; lia].
    apply search_sound in E.
    destruct E as (pre & post & -> & -> & Hat & _).
    apply match_at_Matches in Hat. destruct Hat as (w & -> & N & _ & _).
    cbn [map Zsum fold_right result_of index end_index].
    fold (Zsum (map (fun m => end_index m - index m)
                 (if pos y =? p + Z.of_nat (length pre)
                  then match rest y with
                       | [] => []
                       | ch :: tl =>
                           matchAll_from fuel r input (Some ch)
                             (pos y + 1) tl
                       end
                  else matchAll_from fuel r input (prev y) (pos y)
                         (rest y)))).
    rewrite !length_app.
    destruct (pos y =? p + Z.of_nat (length pre)).
    + destruct (rest y) as [|ch tl]; [cbn; lia|].
      specialize (IH tl (Some ch) (pos y + 1)). cbn [length]. lia.
    + specialize (IH (rest y) (prev y) (pos y)). lia.
Qed.

(** Every result of the global scan, with the text it matched. *)
Lemma matchAll_from_texts r input :
  forall fuel done s pv p m,
    input = done ++ s -> pv = last_or None done ->
    p = Z.of_nat (length done) ->
    In m (matchAll_from fuel r input pv p s) ->
    exists pre w post cp,
      input = pre ++ w ++ post
      /\ Matches r (last_or None pre) (Z.of_nat (length pre)) w post cp
      /\ end_index m - index m = Z.of_nat (length w)
      /\ groups m = capture input cp.
Proof.
  induction fuel as [|fuel IH]; intros done s pv p m Hin Hpv Hp Hm;
    cbn [matchAll_from] in Hm; [contradiction|].
  destruct (search r pv p s) as [[start y]|] eqn:E; [|contradiction].
  apply search_sound in E.
  destruct E as (pre & post & -> & -> & Hat & _).
  apply match_at_Matches in Hat. destruct Hat as (w & -> & N & P & M).
  assert (Hpv' : last_or pv pre = last_or None (done ++ pre))
    by (now rewrite last_or_app, Hpv).
  assert (Hp' : p + Z.of_nat (length pre) = Z.of_nat (length (done ++ pre)))
    by (rewrite length_app; lia).
  destruct Hm as [<-|Hm].
  - exists (done ++ pre), w, (rest y), (caps y).
    split; [now rewrite Hin, <- !app_assoc|].
    rewrite <- Hpv', <- Hp'. cbn [result_of index end_index groups].
    repeat split; auto. lia.
  - assert (Hin' : input = (done ++ pre ++ w) ++ rest y)
      by (now rewrite Hin, <- !app_assoc).
    assert (Hprev : prev y = last_or None (done ++ pre ++ w))
      by (now rewrite P, Hpv', !last_or_app).
    assert (Hpos : pos y = Z.of_nat (length (done ++ pre ++ w)))
      by (rewrite N, Hp', !length_app; lia).
    destruct (pos y =? p + Z.of_nat (length pre)).
    + destruct (rest y) as [|ch tl] eqn:Er; [contradiction|].
      apply (IH ((done ++ pre ++ w) ++ [ch]) tl (Some ch) (pos y + 1) m);
        auto.
      * now rewrite Hin', <- !app_assoc.
      * now rewrite last_or_snoc.
      * rewrite Hpos, (length_app _ [ch]). simpl length. lia.
    + apply (IH (done ++ pre ++ w) (rest y) (prev y) (pos y) m); auto.
Qed.

Lemma substring_length (s : jsstring) (a n : Z) :
  0 <= n ->
  Z.of_nat (length (substring s a (a + n))) <= n.
Proof.
  intros Hn. unfold substring.
  replace (a + n - a) with n by lia.
  pose proof (firstn_le_length (Z.to_nat n) (skipn (Z.to_nat a) s)). lia.
Qed.

Lemma or_empty_length (v : option jsstring) (s : jsstring) :
  v = Some s -> length (or_empty v) = length s.
Proof. intros ->. now rewrite or_empty_Some. Qed.

Lemma same_ignoring_case_length (a b : jsstring) :
  same_ignoring_case a b -> length b = length a.
Proof. intros H. symmetry. exact (Forall2_length H). Qed.

(** A matched script spans its two tags, 17 code units, and its body. *)
Lemma script_span (html : jsstring) (m : match_result) :
  In m (scriptMatches html) ->
  17 + Z.of_nat (length (script_body m)) <= end_index m - index m.
Proof.
  intros H. unfold scriptMatches, matchAll in H.
  apply (matchAll_from_texts re_script html _ []) in H; try reflexivity.
  destruct H as (pre & w & post & cp & Hin & M & -> & Hg).
  apply Matches_re_script in M.
  destruct M as (open & attrs & body & close & -> & (Ho & _ & _ & Hc) & ->).
  apply same_ignoring_case_length in Ho, Hc. cbn in Ho, Hc.
  unfold script_body. rewrite Hg. unfold capture.
  cbn [lookup_cap Nat.eqb]. rewrite or_empty_Some.
  pose proof (substring_length html
                (Z.of_nat (length pre)
                 + Z.of_nat (length (open ++ attrs ++ [c_gt])))
                (Z.of_nat (length body)) ltac:(lia)) as Hb.
  revert Hb. generalize (substring html
                (Z.of_nat (length pre)
                 + Z.of_nat (length (open ++ attrs ++ [c_gt])))
                (Z.of_nat (length pre)
                 + Z.of_nat (length (open ++ attrs ++ [c_gt]))
                 + Z.of_nat (length body))).
  intros b Hb. rewrite !length_app, Ho, Hc. cbn [length]. lia.
Qed.

Lemma img_span (html : jsstring) (m : match_result) :
  In m (imgMatches html) -> 5 <= end_index m - index m.
Proof.
  intros H. unfold imgMatches, matchAll in H.
  apply (matchAll_from_texts re_img html _ []) in H; try reflexivity.
  destruct H as (pre & w & post & cp & Hin & M & -> & Hg).
  apply Matches_re_img in M.
  destruct M as (open & attrs & -> & (Ho & _ & _) & ->).
  apply same_ignoring_case_length in Ho. cbn in Ho.
  rewrite !length_app, Ho. cbn [length]. lia.
Qed.

Lemma Zsum_map_le {A : Type} (f g : A -> Z) (l : list A) :
  (forall a, In a l -> f a <= g a) ->
  Zsum (map f l) <= Zsum (map g l).
Proof.
  induction l as [|a l IH]; intros H; cbn [map Zsum fold_right]; [lia|].
  fold (Zsum (map f l)). fold (Zsum (map g l)).
  pose proof (H a (or_introl eq_refl)).
  assert (Zsum (map f l) <= Zsum (map g l))
    by (apply IH; intros; apply H; now right).
  lia.
Qed.

Lemma Zsum_filter_le {A : Type} (f : A -> Z) (P : A -> bool) (l : list A) :
  (forall a, 0 <= f a) ->
  Zsum (map f (filter P l)) <= Zsum (map f l).
Proof.
  intros Hf. induction l as [|a l IH]; cbn [filter map Zsum fold_right];
    [lia|].
  fold (Zsum (map f l)). pose proof (Hf a).
  destruct (P a); cbn [map Zsum fold_right];
    fold (Zsum (map f (filter P l))); lia.
Qed.

Lemma Zsum_map_add {A : Type} (f : A -> Z) (k : Z) (l : list A) :
  Zsum (map (fun a => k + f a) l)
  = k * Z.of_nat (length l) + Zsum (map f l).
Proof.
  induction l as [|a l IH]; cbn [map Zsum fold_right length]; [lia|].
  fold (Zsum (map (fun a => k + f a) l)). fold (Zsum (map f l)).
  rewrite IH. lia.
Qed.

Lemma Zsum_const {A : Type} (k : Z) (l : list A) :
  Zsum (map (fun _ => k) l) = k * Z.of_nat (length l).
Proof.
  induction l as [|a l IH]; cbn [map Zsum fold_right length]; [lia|].
  fold (Zsum (map (fun _ : A => k) l)). rewrite IH. lia.
Qed.

(** The UTF-8 encoding takes between one and three bytes per code
    unit. *)
Lemma byteLength_bounds (s : jsstring) :
  Z.of_nat (length s) <= byteLength s <= 3 * Z.of_nat (length s).
Proof.
  assert (H : forall n s, (length s <= n)%nat ->
                Z.of_nat (length s) <= byteLength s
                <= 3 * Z.of_nat (length s)).
  { clear s. induction n as [|n IH]; intros [|c tl] Hlen;
      cbn [byteLength length] in *; try lia.
    assert (Htl : Z.of_nat (length tl) <= byteLength tl
                  <= 3 * Z.of_nat (length tl)) by (apply IH; lia).
    destruct (c <? 128); [lia|]. destruct (c <? 2048); [lia|].
    destruct (is_high_surrogate c); [|lia].
    destruct tl as [|d tl']; [cbn [length]; lia|].
    destruct (is_low_surrogate d); [|lia].
    assert (Z.of_nat (length tl') <= byteLength tl'
            <= 3 * Z.of_nat (length tl'))
      by (apply IH; cbn [length] in Hlen; lia).
    cbn [length] in *. lia. }
  apply (H (length s)). apply Nat.le_refl.
Qed.

(** X9. The matched elements do not overlap, so the counts are bounded by
    the size of the page: a script takes at least the 17 code units of its
    two tags and an image at least 5, and the inline weight is at most
    three bytes for each code unit left for the script bodies. *)
Theorem counts_bounded_by_page_size :
  forall (toLowerCase : jsstring -> jsstring) (url html : jsstring),
    let r := analyse toLowerCase url html in
    17 * totalScripts r <= Z.of_nat (length html)
    /\ 5 * totalImages r <= Z.of_nat (length html)
    /\ inlineBytes_of html
       <= 3 * (Z.of_nat (length html) - 17 * totalScripts r).
Proof.
  intros toLowerCase url html. cbv zeta. unfold analyse, inlineBytes_of.
  cbn [totalScripts totalImages].
  destruct (count_scripts_spec html) as (-> & _ & ->).
  destruct (count_images_spec toLowerCase html) as (-> & _ & _).
  pose proof (matchAll_from_spans re_script html (S (length html)) html
                None 0) as Hs.
  pose proof (matchAll_from_spans re_img html (S (length html)) html
                None 0) as Hi.
  fold (matchAll re_script html) in Hs. fold (scriptMatches html) in Hs.
  fold (matchAll re_img html) in Hi. fold (imgMatches html) in Hi.
  pose proof (Zsum_map_le
                (fun m => 17 + Z.of_nat (length (script_body m)))
                (fun m => end_index m - index m) (scriptMatches html)
                (script_span html)) as Hs'.
  rewrite Zsum_map_add in Hs'.
  pose proof (Zsum_map_le (fun _ => 5)
                (fun m => end_index m - index m) (imgMatches html)
                (img_span html)) as Hi'.
  rewrite Zsum_const in Hi'.
  assert (Hbody : 0 <= Zsum (map (fun m => Z.of_nat (length (script_body m)))
                                 (scriptMatches html))).
  { clear. induction (scriptMatches html) as [|m l IH];
      cbn [map Zsum fold_right]; [lia|].
    fold (Zsum (map (fun m => Z.of_nat (length (script_body m))) l)). lia. }
  assert (Hbytes :
    Zsum (map (fun m => byteLength (script_body m))
              (filter (fun m => is_inline (script_attrs m))
                      (scriptMatches html)))
    <= Zsum (map (fun m => 3 * Z.of_nat (length (script_body m)))
                 (scriptMatches html))).
  { eapply Z.le_trans.
    - apply Zsum_filter_le. intros m. apply byteLength_nonneg.
    - apply Zsum_map_le. intros m _. apply byteLength_bounds. }
  assert (H3 :
    Zsum (map (fun m => 3 * Z.of_nat (length (script_body m)))
              (scriptMatches html))
    = 3 * Zsum (map (fun m => Z.of_nat (length (script_body m)))
                    (scriptMatches html))).
  { clear. induction (scriptMatches html) as [|m l IH];
      cbn [map Zsum fold_right]; [lia|].
    fold (Zsum (map (fun m => 3 * Z.of_nat (length (script_body m))) l)).
    fold (Zsum (map (fun m => Z.of_nat (length (script_body m))) l)).
    rewrite IH. lia. }
  repeat split; lia.
Qed.

(* ================================================================== *)
(** ** More on the scorer *)

Lemma lazy_penalty_integers (totalImages noLazy : Z) :
  Spec.lazy_penalty totalImages noLazy
  = if (0 <? totalImages) && (totalImages <? 2 * noLazy) then 10 else 0.
Proof.
  unfold Spec.lazy_penalty. destruct (Z.ltb_spec 0 totalImages) as [H|H];
    cbn [andb]; [|reflexivity].
  now rewrite ratio_gt_half.
Qed.

Lemma penalties_expand (ts bs ib ti nl sl : Z) :
  Spec.penalties ts bs ib ti nl sl
  = (if 10 <? ts then (ts - 10) * 2 else 0)
    + (if 5 <? bs then (bs - 5) * 4 else 0)
    + (if 50000 <? ib then 15 else 0)
    + (if 150000 <? ib then 20 else 0)
    + (if (0 <? ti) && (ti <? 2 * nl) then 10 else 0)
    + (if 0 <? sl then sl * 5 else 0).
Proof.
  unfold Spec.penalties. now rewrite lazy_penalty_integers.
Qed.

(** X10. The score never rises when a page gets worse: with the number of
    images fixed, more scripts, more blocking scripts, more inline bytes,
    more images without lazy loading or more suspected-large images give a
    score that is lower or equal. *)
Theorem score_monotone :
  forall ts ts' bs bs' ib ib' ti nl nl' sl sl' : Z,
    ts <= ts' -> bs <= bs' -> ib <= ib' -> nl <= nl' -> sl <= sl' ->
    score ts' bs' ib' ti nl' sl' <= score ts bs ib ti nl sl.
Proof.
  intros ts ts' bs bs' ib ib' ti nl nl' sl sl' Hts Hbs Hib Hnl Hsl.
  rewrite !score_eq_spec. unfold Spec.score. rewrite !penalties_expand.
  assert (H1 : (if 10 <? ts then (ts - 10) * 2 else 0)
               <= (if 10 <? ts' then (ts' - 10) * 2 else 0))
    by (split_ltb; lia).
  assert (H2 : (if 5 <? bs then (bs - 5) * 4 else 0)
               <= (if 5 <? bs' then (bs' - 5) * 4 else 0))
    by (split_ltb; lia).
  assert (H3 : (if 50000 <? ib then 15 else 0)
               <= (if 50000 <? ib' then 15 else 0))
    by (split_ltb; lia).
  assert (H4 : (if 150000 <? ib then 20 else 0)
               <= (if 150000 <? ib' then 20 else 0))
    by (split_ltb; lia).
  assert (H5 : (if (0 <? ti) && (ti <? 2 * nl) then 10 else 0)
               <= (if (0 <? ti) && (ti <? 2 * nl') then 10 else 0))
    by (split_ltb; cbn [andb]; lia).
  assert (H6 : (if 0 <? sl then sl * 5 else 0)
               <= (if 0 <? sl' then sl' * 5 else 0))
    by (split_ltb; lia).
  lia.
Qed.

Lemma score_monotone_witness :
  score 14 8 60000 4 3 1 <= score 12 6 40000 4 2 0.
Proof. apply score_monotone; lia. Defined.

(** X11. The score is 100 exactly when no penalty applies: at most 10
    scripts, at most 5 blocking scripts, at most 50,000 inline bytes, no
    suspected-large image, and not more than half of the images without
    lazy loading; when exactly half of them lack it, the lazy-loading
    penalty does not apply.  For the result of a page this reads on its
    counts. *)
Theorem perfect_score_iff :
  (forall ts bs ib ti nl sl : Z,
     score ts bs ib ti nl sl = 100
     <-> ts <= 10 /\ bs <= 5 /\ ib <= 50000 /\ sl <= 0
         /\ ~ (0 < ti /\ ti < 2 * nl))
  /\ (forall (toLowerCase : jsstring -> jsstring) (url html : jsstring),
        let r := analyse toLowerCase url html in
        performanceSmellScore r = 100
        <-> totalScripts r <= 10 /\ blockingScripts r <= 5
            /\ inlineBytes_of html <= 50000
            /\ suspectedLargeImages r = 0
            /\ 2 * imagesMissingLazyLoad r <= totalImages r).
Proof.
  assert (H : forall ts bs ib ti nl sl : Z,
            score ts bs ib ti nl sl = 100
            <-> ts <= 10 /\ bs <= 5 /\ ib <= 50000 /\ sl <= 0
                /\ ~ (0 < ti /\ ti < 2 * nl)).
  { intros ts bs ib ti nl sl. rewrite score_eq_spec. unfold Spec.score.
    rewrite penalties_expand. split_ltb; cbn [andb]; lia. }
  split; [exact H|].
  intros toLowerCase url html. cbv zeta.
  pose proof (counts_nonneg toLowerCase html) as (_ & _ & _ & _ & Hnl & Hsl).
  assert (Hle : ic_noLazy (count_images toLowerCase html)
                <= ic_total (count_images toLowerCase html)).
  { destruct (count_images_spec toLowerCase html) as (-> & -> & _).
    apply count_bounds. }
  unfold analyse, inlineBytes_of.
  cbn [performanceSmellScore totalScripts blockingScripts totalImages
       imagesMissingLazyLoad suspectedLargeImages].
  rewrite H. lia.
Qed.

(* ================================================================== *)
(** ** The inline weight in kilobytes *)

Lemma analyse_notes (toLowerCase : jsstring -> jsstring)
    (url html : jsstring) :
  let r := analyse toLowerCase url html in
  notes r = Spec.notes (totalScripts r) (blockingScripts r)
              (inlineBytes_of html) (totalImages r)
              (imagesMissingLazyLoad r) (suspectedLargeImages r).
Proof.
  cbv zeta. unfold analyse, inlineBytes_of.
  cbn [notes totalScripts blockingScripts totalImages
       imagesMissingLazyLoad suspectedLargeImages].
  apply make_notes_eq_spec.
Qed.

(** X12. [inlineScriptKB] is the inline weight divided by 1024 and rounded
    to the nearest integer, a half going up: the weight lies within 512
    bytes of it.  A page with 1 to 511 inline bytes therefore reports 0
    kilobytes, and its third note still reads [Inline JS total ~0KB.]. *)
Theorem inlineScriptKB_rounding :
  forall (toLowerCase : jsstring -> jsstring) (url html : jsstring),
    let r := analyse toLowerCase url html in
    1024 * inlineScriptKB r - 512 <= inlineBytes_of html
      < 1024 * inlineScriptKB r + 512
    /\ (0 < inlineBytes_of html < 512 ->
        inlineScriptKB r = 0
        /\ nth_error (notes r) 2 = Some (lit "Inline JS total ~0KB.")).
Proof.
  intros toLowerCase url html. cbv zeta.
  assert (Hkb : inlineScriptKB (analyse toLowerCase url html)
                = (inlineBytes_of html + 512) / 1024).
  { unfold analyse, inlineBytes_of. cbn [inlineScriptKB].
    apply Math_round_div_1024. }
  pose proof (Z.div_mod (inlineBytes_of html + 512) 1024 ltac:(lia)) as Hd.
  pose proof (Z.mod_pos_bound (inlineBytes_of html + 512) 1024 ltac:(lia))
    as Hm.
  split; [rewrite Hkb; lia|].
  intros Hsmall.
  assert (H0 : (inlineBytes_of html + 512) / 1024 = 0)
    by (apply Z.div_small; lia).
  split; [now rewrite Hkb|].
  rewrite (analyse_notes toLowerCase url html). unfold Spec.notes.
  replace (0 <? inlineBytes_of html) with true
    by (symmetry; apply Z.ltb_lt; lia).
  cbn [app nth_error]. unfold Spec.inline_note.
  rewrite Math_round_div_1024, H0. reflexivity.
Qed.

Lemma inlineScriptKB_rounding_witness :
  let r := analyse ascii_toLowerCase some_url h1_page in
  inlineScriptKB r = 0
  /\ nth_error (notes r) 2 = Some (lit "Inline JS total ~0KB.").
Proof.
  apply (proj2 (inlineScriptKB_rounding ascii_toLowerCase some_url h1_page)).
  vm_compute. split; reflexivity.
Defined.

(* ================================================================== *)
(** ** The greeting tool *)

Lemma sgcgreeting_selected (toLowerCase : jsstring -> jsstring)
    (name selected : jsstring) :
  exists g,
    (g = hola name \/ g = bonjour name \/ g = hello name)
    /\ (toLowerCase selected = lit "spanish" -> g = hola name)
    /\ (toLowerCase selected = lit "french" -> g = bonjour name)
    /\ (toLowerCase selected <> lit "spanish" ->
        toLowerCase selected <> lit "french" -> g = hello name)
    /\ g = (if jsstring_eqb (toLowerCase selected) (lit "spanish")
            then hola name
            else if jsstring_eqb (toLowerCase selected) (lit "french")
                 then bonjour name else hello name).
Proof.
  eexists. split; [|split; [|split; [|split; [|reflexivity]]]].
  - destruct (jsstring_eqb (toLowerCase selected) (lit "spanish"));
      [|destruct (jsstring_eqb (toLowerCase selected) (lit "french"))];
      auto.
  - intros ->. reflexivity.
  - intros ->. reflexivity.
  - intros H1 H2.
    destruct (jsstring_eqb (toLowerCase selected) (lit "spanish")) eqn:E1.
    { apply jsstring_eqb_eq in E1. contradiction. }
    destruct (jsstring_eqb (toLowerCase selected) (lit "french")) eqn:E2.
    { apply jsstring_eqb_eq in E2. contradiction. }
    reflexivity.
Qed.

(** X13. When a non-empty [language] is given, the greeting tool returns
    it unchanged, whatever its case and whatever the random draw, with a
    greeting that holds the name: the Spanish or the French one when the
    lower-cased language is [spanish] or [french], and the English one for
    every other language, which is still echoed back as given. *)
Theorem greeting_echoes_language :
  forall (toLowerCase : jsstring -> jsstring) (random_index : Z)
         (name : jsstring) (c : code_unit) (s : jsstring),
    exists g,
      sgcgreeting toLowerCase random_index name (Some (c :: s))
      = Return {| greeting := g; language := c :: s |}
      /\ (g = hola name \/ g = bonjour name \/ g = hello name)
      /\ (toLowerCase (c :: s) = lit "spanish" -> g = hola name)
      /\ (toLowerCase (c :: s) = lit "french" -> g = bonjour name)
      /\ (toLowerCase (c :: s) <> lit "spanish" ->
          toLowerCase (c :: s) <> lit "french" -> g = hello name).
Proof.
  intros toLowerCase random_index name c s.
  destruct (sgcgreeting_selected toLowerCase name (c :: s))
    as (g & H1 & H2 & H3 & H4 & Hg).
  exists g. split; [|auto].
  unfold sgcgreeting. cbv zeta. rewrite Hg. reflexivity.
Qed.

Lemma greeting_echoes_language_witness :
  exists g,
    sgcgreeting ascii_toLowerCase 0 (lit "Ada") (Some (lit "SPANISH"))
    = Return {| greeting := g; language := lit "SPANISH" |}
    /\ g = hola (lit "Ada").
Proof.
  destruct (greeting_echoes_language ascii_toLowerCase 0 (lit "Ada")
              83 (lit "PANISH")) as (g & H & _ & Hs & _).
  exists g. split; [exact H|]. apply Hs. reflexivity.
Defined.

(** X14. When [language] is missing or empty, the language is drawn from
    [english], [spanish], [french] by the random index, and, when
    lower-casing leaves these three names unchanged, the greeting is in
    the language returned; the call throws when the index is outside the
    list. *)
Theorem greeting_default_language :
  forall (toLowerCase : jsstring -> jsstring) (random_index : Z)
         (name : jsstring) (language : option jsstring),
    language = None \/ language = Some [] ->
    (forall l, In l greeting_languages -> toLowerCase l = l) ->
    (random_index = 0 ->
     sgcgreeting toLowerCase random_index name language
     = Return {| greeting := hello name; language := lit "english" |})
    /\ (random_index = 1 ->
        sgcgreeting toLowerCase random_index name language
        = Return {| greeting := hola name; language := lit "spanish" |})
    /\ (random_index = 2 ->
        sgcgreeting toLowerCase random_index name language
        = Return {| greeting := bonjour name; language := lit "french" |})
    /\ (random_index < 0 \/ 3 <= random_index ->
        sgcgreeting toLowerCase random_index name language
        = Throw TypeError_toLowerCase).
Proof.
  intros toLowerCase random_index name language Hl Hlow.
  assert (E : forall i,
            sgcgreeting toLowerCase i name language
            = match js_index greeting_languages i with
              | None => Throw TypeError_toLowerCase
              | Some sel =>
                  Return {| greeting :=
                              if jsstring_eqb (toLowerCase sel)
                                   (lit "spanish")
                              then hola name
                              else if jsstring_eqb (toLowerCase sel)
                                        (lit "french")
                                   then bonjour name else hello name;
                            language := sel |}
              end).
  { intros i. unfold sgcgreeting. destruct Hl as [-> | ->]; reflexivity. }
  assert (He : toLowerCase (lit "english") = lit "english")
    by (apply Hlow; cbn; auto).
  assert (Hs : toLowerCase (lit "spanish") = lit "spanish")
    by (apply Hlow; cbn; auto).
  assert (Hf : toLowerCase (lit "french") = lit "french")
    by (apply Hlow; cbn; auto).
  split; [|split; [|split]].
  - intros ->. rewrite E.
    change (js_index greeting_languages 0) with (Some (lit "english")).
    cbv iota. rewrite He. reflexivity.
  - intros ->. rewrite E.
    change (js_index greeting_languages 1) with (Some (lit "spanish")).
    cbv iota. rewrite Hs. reflexivity.
  - intros ->. rewrite E.
    change (js_index greeting_languages 2) with (Some (lit "french")).
    cbv iota. rewrite Hf. reflexivity.
  - intros H. rewrite E. unfold js_index.
    destruct (Z.ltb_spec random_index 0); [reflexivity|].
    destruct H as [H|H]; [lia|].
    replace (nth_error greeting_languages (Z.to_nat random_index))
      with (@None jsstring); [reflexivity|].
    symmetry. apply nth_error_None. cbn [greeting_languages length]. lia.
Qed.

Lemma greeting_default_language_witness :
  sgcgreeting ascii_toLowerCase 1 (lit "Ada") None
  = Return {| greeting := hola (lit "Ada"); language := lit "spanish" |}.
Proof.
  apply (proj1 (proj2 (greeting_default_language ascii_toLowerCase 1
                         (lit "Ada") None (or_introl eq_refl)
                         ltac:(intros l [<-|[<-|[<-|[]]]]; reflexivity)))).
  reflexivity.
Defined.
